(** * SSRCMap: the registry of src/receive/SSRCMap.ts

    A shallow embedding of the class [SSRCMap] (a [Map<number, VoiceUserData>]
    wrapped in an event emitter) and of the part of the JavaScript runtime its
    method [resolve] relies on: the emitter's listener array for the ['new']
    event, one-shot timers and promises.

    Conventions of the model.
    - A JavaScript [number] that names an SSRC or a duration in milliseconds
      is an integer, [Z].
    - Objects stored in the map are never mutated in place by the class
      ([update] builds a fresh object), so a [VoiceUserData] object is a
      value.
    - Subscribers other than the closures registered by [resolve] are
      represented by the log [emitted] of what the emitter delivered; they
      are assumed not to call back into the registry while an event is being
      delivered.
    - Real time is abstracted: a timer that is armed may be run by the event
      loop (action [ATimer]); a timer that was cleared or already ran
      never runs. *)

From Stdlib Require Import ZArith.
From stdpp Require Import base option list strings.

(** ** Object properties *)

(** An own property of a JavaScript object: not there at all, there with the
    value [undefined], or there with a proper value.  [videoSSRC?: number]
    admits all three. *)
Inductive property (A : Type) : Type :=
  | Absent
  | Undefined
  | Has (a : A).
Arguments Absent {A}.
Arguments Undefined {A}.
Arguments Has {A} a.

#[global] Instance property_eq_dec {A} `{EqDecision A} : EqDecision (property A).
Proof. solve_decision. Defined.

(** [interface VoiceUserData].  [update] reads [data.audioSSRC] itself, so
    that field is always there; the two others are only ever copied by the
    object spread. *)
Record VoiceUserData : Type := mkVoiceUserData {
  audioSSRC : Z;
  videoSSRC : property Z;
  userId : property string
}.

#[global] Instance VoiceUserData_eq_dec : EqDecision VoiceUserData.
Proof. solve_decision. Defined.

(** One property of [{...existing, ...data}]: the later spread wins whenever
    it has the property. *)
Definition spread_property {A} (existing data : property A) : property A :=
  match data with
  | Absent => existing
  | _ => data
  end.

(** [{ ...existing, ...data }] where [existing] may be [undefined]
    (spreading [undefined] copies nothing). *)
Definition spread (existing : option VoiceUserData) (data : VoiceUserData)
  : VoiceUserData :=
  match existing with
  | None => data
  | Some e =>
      {| audioSSRC := audioSSRC data;
         videoSSRC := spread_property (videoSSRC e) (videoSSRC data);
         userId := spread_property (userId e) (userId data) |}
  end.

(** ** The JavaScript [Map<number, VoiceUserData>]

    Entries are kept in insertion order: [set] on a key that is there keeps
    its position, [set] on a new key appends, [delete] removes. *)
Module JSMap.

Definition t : Type := list (Z * VoiceUserData).

Definition empty : t := [].

Fixpoint get (k : Z) (m : t) : option VoiceUserData :=
  match m with
  | [] => None
  | (k', v) :: m' => if decide (k = k') then Some v else get k m'
  end.

Fixpoint set (k : Z) (v : VoiceUserData) (m : t) : t :=
  match m with
  | [] => [(k, v)]
  | (k', v') :: m' =>
      if decide (k = k') then (k, v) :: m' else (k', v') :: set k v m'
  end.

Fixpoint delete (k : Z) (m : t) : t :=
  match m with
  | [] => []
  | (k', v') :: m' =>
      if decide (k = k') then m' else (k', v') :: delete k m'
  end.

Definition keys (m : t) : list Z := fst <$> m.
Definition values (m : t) : list VoiceUserData := snd <$> m.
Definition entries (m : t) : list (Z * VoiceUserData) := m.

End JSMap.

(** ** Events, promises and the state of the registry *)

(** [interface SSRCMapEvents]: what the emitter delivers. *)
Inductive Event : Type :=
  | EvNew (newData : VoiceUserData)
  | EvUpdate (oldData : option VoiceUserData) (newData : VoiceUserData)
  | EvDelete (deletedData : VoiceUserData).

#[global] Instance Event_eq_dec : EqDecision Event.
Proof. solve_decision. Defined.

(** [new Error(`Did not find SSRC for user ${target} within ${maxTime}ms`)]:
    the two values the message is built from. *)
Inductive Error : Type :=
  | DidNotFindSSRC (target : string) (maxTime : Z).

#[global] Instance Error_eq_dec : EqDecision Error.
Proof. solve_decision. Defined.

Inductive PromiseState : Type :=
  | Pending
  | Fulfilled (value : VoiceUserData)
  | Rejected (reason : Error).

#[global] Instance PromiseState_eq_dec : EqDecision PromiseState.
Proof. solve_decision. Defined.

(** One call of [resolve]: the variables its closures capture, the state of
    the promise it returned, and how many times the promise's [resolve] or
    [reject] function has been called. *)
Record Call : Type := mkCall {
  target : string;
  maxTime : option Z;
  promise : PromiseState;
  settles : nat
}.

(** [target: number | string]. *)
Inductive Target : Type :=
  | TNum (n : Z)
  | TStr (s : string).

Module SSRCMap.

(** The registry and the runtime around it.  A call of [resolve] is named
    by its index in [calls]; that index also names its [onNew] closure in
    [listeners] (the emitter's listener array for ['new'], in registration
    order) and its timer in [timers] (the timers that are armed). *)
Record t : Type := mk {
  map : JSMap.t;
  listeners : list nat;
  timers : list nat;
  calls : list Call;
  emitted : list Event
}.

(** [new SSRCMap()]. *)
Definition init : t :=
  {| map := JSMap.empty; listeners := []; timers := []; calls := [];
     emitted := [] |}.

Definition with_map (m : JSMap.t) (s : t) : t :=
  {| map := m; listeners := listeners s; timers := timers s;
     calls := calls s; emitted := emitted s |}.
Definition with_listeners (l : list nat) (s : t) : t :=
  {| map := map s; listeners := l; timers := timers s;
     calls := calls s; emitted := emitted s |}.
Definition with_timers (l : list nat) (s : t) : t :=
  {| map := map s; listeners := listeners s; timers := l;
     calls := calls s; emitted := emitted s |}.
Definition with_calls (l : list Call) (s : t) : t :=
  {| map := map s; listeners := listeners s; timers := timers s;
     calls := l; emitted := emitted s |}.
Definition with_emitted (l : list Event) (s : t) : t :=
  {| map := map s; listeners := listeners s; timers := timers s;
     calls := calls s; emitted := l |}.

(** [this.off('new', onNew)] for the closure of call [id]. *)
Definition off (id : nat) (s : t) : t :=
  with_listeners (filter (λ j, j ≠ id) (listeners s)) s.

(** [this.on('new', onNew)]. *)
Definition on (id : nat) (s : t) : t :=
  with_listeners (listeners s ++ [id]) s.

(** [setTimeout(..., maxTime)] and [clearTimeout(timeout)]. *)
Definition setTimeout (id : nat) (s : t) : t :=
  with_timers (timers s ++ [id]) s.
Definition clearTimeout (id : nat) (s : t) : t :=
  with_timers (filter (λ j, j ≠ id) (timers s)) s.

(** Calling the [resolve] or [reject] function of the promise of call
    [id]: only the first call settles the promise. *)
Definition settle_call (st : PromiseState) (c : Call) : Call :=
  {| target := target c; maxTime := maxTime c;
     promise := match promise c with Pending => st | p => p end;
     settles := S (settles c) |}.
Definition settle (id : nat) (st : PromiseState) (s : t) : t :=
  with_calls (alter (settle_call st) id (calls s)) s.

(** The closure [onNew] of call [id], lines 117-123. *)
Definition onNew (id : nat) (userData : VoiceUserData) (s : t) : t :=
  match calls s !! id with
  | None => s
  | Some c =>
      if decide (userId userData = Has (target c)) then
        let s1 := off id s in
        let s2 := match maxTime c with
                  | Some _ => clearTimeout id s1
                  | None => s1
                  end in
        settle id (Fulfilled userData) s2
      else s
  end.

(** The timer callback of call [id], lines 111-114. *)
Definition onTimeout (id : nat) (s : t) : t :=
  match calls s !! id with
  | None => s
  | Some c =>
      match maxTime c with
      | None => s
      | Some ms =>
          settle id (Rejected (DidNotFindSSRC (target c) ms)) (off id s)
      end
  end.

(** [this.emit('new', v)]: the emitter runs a copy of its listener array,
    in registration order. *)
Definition emit_new (v : VoiceUserData) (s : t) : t :=
  foldl (λ acc id, onNew id v acc)
        (with_emitted (emitted s ++ [EvNew v]) s) (listeners s).

(** [this.emit('update', ...)] and [this.emit('delete', ...)]: [resolve]
    registers no listener for them. *)
Definition emit (e : Event) (s : t) : t :=
  with_emitted (emitted s ++ [e]) s.

(** [update(data)], lines 51-62. *)
Definition update (data : VoiceUserData) (s : t) : t :=
  let existing := JSMap.get (audioSSRC data) (map s) in
  let newValue := spread (JSMap.get (audioSSRC data) (map s)) data in
  let s1 := with_map (JSMap.set (audioSSRC data) newValue (map s)) s in
  let s2 := match existing with
            | None => emit_new newValue s1
            | Some _ => s1
            end in
  emit (EvUpdate existing newValue) s2.

(** The loop of [get], lines 73-77, over [this.map.values()]. *)
Fixpoint get_loop (tgt : string) (vs : list VoiceUserData)
  : option VoiceUserData :=
  match vs with
  | [] => None
  | data :: vs' =>
      if decide (userId data = Has tgt) then Some data else get_loop tgt vs'
  end.

(** [get(target)], lines 69-78; [None] is [undefined]. *)
Definition get (tgt : Target) (s : t) : option VoiceUserData :=
  match tgt with
  | TNum n => JSMap.get n (map s)
  | TStr u => get_loop u (JSMap.values (map s))
  end.

(** The loop of [delete], lines 95-101, over [this.map.entries()]; the
    state is the one the method was called in, [es] what is left of the
    iteration. *)
Fixpoint delete_loop (tgt : string) (es : list (Z * VoiceUserData)) (s : t)
  : t * option VoiceUserData :=
  match es with
  | [] => (s, None)
  | (k, data) :: es' =>
      if decide (userId data = Has tgt) then
        (emit (EvDelete data) (with_map (JSMap.delete k (map s)) s),
         Some data)
      else delete_loop tgt es' s
  end.

(** [delete(target)], lines 86-102. *)
Definition delete (tgt : Target) (s : t) : t * option VoiceUserData :=
  match tgt with
  | TNum n =>
      match JSMap.get n (map s) with
      | Some existing =>
          (emit (EvDelete existing) (with_map (JSMap.delete n (map s)) s),
           Some existing)
      | None => (s, None)
      end
  | TStr u => delete_loop u (JSMap.entries (map s)) s
  end.

(** [resolve(target, maxTime)], lines 104-126.  The result is the new
    state and the index of the call, which names the promise returned. *)
Definition resolve (tgt : string) (ms : option Z) (s : t) : t * nat :=
  let id := length (calls s) in
  match get (TStr tgt) s with
  | Some existing =>
      (with_calls (calls s ++ [mkCall tgt ms (Fulfilled existing) 0]) s, id)
  | None =>
      let s1 := with_calls (calls s ++ [mkCall tgt ms Pending 0]) s in
      let s2 := match ms with
                | Some _ => setTimeout id s1
                | None => s1
                end in
      (on id s2, id)
  end.

(** The event loop running the timer of call [id]: only an armed timer
    runs, and it runs once. *)
Definition fire (id : nat) (s : t) : t :=
  if decide (id ∈ timers s) then onTimeout id (clearTimeout id s) else s.

(** The state of the promise of call [id]. *)
Definition promise_of (id : nat) (s : t) : option PromiseState :=
  promise <$> calls s !! id.

Definition settles_of (id : nat) (s : t) : option nat :=
  settles <$> calls s !! id.

End SSRCMap.

(** ** Runs of the registry *)

(** What the rest of the program, and the event loop, can do to a
    registry. *)
Inductive Action : Type :=
  | AUpdate (data : VoiceUserData)
  | ADelete (tgt : Target)
  | AResolve (tgt : string) (ms : option Z)
  | ATimer (id : nat).

Definition step (s : SSRCMap.t) (a : Action) : SSRCMap.t :=
  match a with
  | AUpdate data => SSRCMap.update data s
  | ADelete tgt => fst (SSRCMap.delete tgt s)
  | AResolve tgt ms => fst (SSRCMap.resolve tgt ms s)
  | ATimer id => SSRCMap.fire id s
  end.

Definition run (acts : list Action) (s : SSRCMap.t) : SSRCMap.t :=
  foldl step s acts.

(** ** Predicates on states, inputs and logs *)

(** The map of a registry has one entry per key, and each binding is stored
    under its own [audioSSRC]. *)
Definition map_ok (m : JSMap.t) : Prop :=
  NoDup (JSMap.keys m) ∧ ∀ k v, (k, v) ∈ m → audioSSRC v = k.

(** The documented contract on [videoSSRC]: "Cannot be 0". *)
Definition video_ok (d : VoiceUserData) : Prop :=
  ∀ v, videoSSRC d = Has v → v ≠ 0%Z.

(** A caller that honours that contract in what it passes to [update]. *)
Definition honours_contract (a : Action) : Prop :=
  match a with
  | AUpdate data => video_ok data
  | _ => True
  end.

(** Notifications about the key [K] in a log. *)
Definition is_creation (K : Z) (e : Event) : bool :=
  match e with
  | EvNew v => bool_decide (audioSSRC v = K)
  | _ => false
  end.

Definition is_update (K : Z) (e : Event) : bool :=
  match e with
  | EvUpdate _ v => bool_decide (audioSSRC v = K)
  | _ => false
  end.

Definition creations (K : Z) (log : list Event) : nat :=
  length (filter (λ e, is_creation K e) log).

Definition updates (K : Z) (log : list Event) : nat :=
  length (filter (λ e, is_update K e) log).

(** How many of the records [ds] name the key [K]. *)
Definition calls_for (K : Z) (ds : list VoiceUserData) : nat :=
  length (filter (λ d, audioSSRC d = K) ds).

(** Deletion notifications about the key [K] in a log. *)
Definition is_deletion (K : Z) (e : Event) : bool :=
  match e with
  | EvDelete v => bool_decide (audioSSRC v = K)
  | _ => false
  end.

Definition deletions (K : Z) (log : list Event) : nat :=
  length (filter (λ e, is_deletion K e) log).

(** ** The calls of [resolve] in a state

    What a promise may be settled with, for the call [c] that returned
    it. *)
Definition settled_by (c : Call) (st : PromiseState) : Prop :=
  match st with
  | Pending => False
  | Fulfilled v => userId v = Has (target c)
  | Rejected e =>
      ∃ ms, maxTime c = Some ms ∧ e = DidNotFindSSRC (target c) ms
  end.

(** The call number [id] is consistent with the listener array and the
    armed timers: while its promise is pending its listener is registered
    and its timer, if it asked for one, is armed, and nothing has called the
    promise's functions; once the promise is settled neither is left, and
    the promise's functions have been called at most once. *)
Definition call_ok (s : SSRCMap.t) (id : nat) (c : Call) : Prop :=
  match promise c with
  | Pending =>
      id ∈ SSRCMap.listeners s
      ∧ (id ∈ SSRCMap.timers s ↔ is_Some (maxTime c))
      ∧ settles c = 0
  | st =>
      (id ∉ SSRCMap.listeners s) ∧ (id ∉ SSRCMap.timers s)
      ∧ settles c ≤ 1 ∧ settled_by c st
  end.

Definition calls_ok (s : SSRCMap.t) : Prop :=
  NoDup (SSRCMap.listeners s)
  ∧ (∀ id, (id ∈ SSRCMap.listeners s) ∨ (id ∈ SSRCMap.timers s) →
           id < length (SSRCMap.calls s))
  ∧ (∀ id c, SSRCMap.calls s !! id = Some c → call_ok s id c).

(** * Facts about the model *)

(** ** The JavaScript map *)
Section jsmap_facts.
Implicit Types (m : JSMap.t) (k : Z) (v : VoiceUserData).

Lemma jsmap_get_set_eq m k v : JSMap.get k (JSMap.set k v m) = Some v.
Proof.
  induction m as [|[k' v'] m IH]; simpl.
  - by rewrite decide_True.
  - destruct (decide (k = k')) as [->|Hne]; simpl.
    + by rewrite decide_True.
    + by rewrite decide_False.
Qed.

Lemma jsmap_get_set_ne m k k' v :
  k ≠ k' → JSMap.get k' (JSMap.set k v m) = JSMap.get k' m.
Proof.
  intros Hne. induction m as [|[k0 v0] m IH]; simpl.
  - by rewrite decide_False.
  - destruct (decide (k = k0)) as [->|Hk]; simpl.
    + by rewrite !decide_False.
    + destruct (decide (k' = k0)); done.
Qed.

Lemma jsmap_get_None m k : JSMap.get k m = None ↔ k ∉ JSMap.keys m.
Proof.
  unfold JSMap.keys. induction m as [|[k' v'] m IH]; simpl.
  - split; [intros _; apply not_elem_of_nil | done].
  - rewrite not_elem_of_cons. destruct (decide (k = k')) as [->|Hne].
    + split; [done | intros [? _]; done].
    + rewrite IH. split; [by intros ? | by intros [_ ?]].
Qed.

Lemma jsmap_get_elem_of m k v : JSMap.get k m = Some v → (k, v) ∈ m.
Proof.
  induction m as [|[k' v'] m IH]; simpl; [done|].
  destruct (decide (k = k')) as [->|Hne].
  - intros [= ->]. apply list_elem_of_here.
  - intros Hget. apply list_elem_of_further. by apply IH.
Qed.

Lemma jsmap_elem_of_get m k v :
  NoDup (JSMap.keys m) → (k, v) ∈ m → JSMap.get k m = Some v.
Proof.
  unfold JSMap.keys. induction m as [|[k' v'] m IH]; simpl.
  - intros _ Hin. by apply elem_of_nil in Hin.
  - intros [Hk' Hnd]%NoDup_cons [[= -> ->]|Hin]%elem_of_cons.
    + by rewrite decide_True.
    + rewrite decide_False; [by apply IH|].
      intros ->. apply Hk'. change k' with (fst (k', v)).
      by apply list_elem_of_fmap_2.
Qed.

(** [set] keeps the insertion order: a key that is there keeps its place,
    a new key goes last. *)
Lemma jsmap_keys_set m k v :
  JSMap.keys (JSMap.set k v m) =
  match JSMap.get k m with
  | Some _ => JSMap.keys m
  | None => JSMap.keys m ++ [k]
  end.
Proof.
  unfold JSMap.keys. induction m as [|[k' v'] m IH]; csimpl; [done|].
  destruct (decide (k = k')) as [->|Hne]; csimpl; [done|].
  rewrite IH. by destruct (JSMap.get k m).
Qed.

Lemma jsmap_length_set m k v :
  length (JSMap.set k v m) =
  match JSMap.get k m with
  | Some _ => length m
  | None => S (length m)
  end.
Proof.
  induction m as [|[k' v'] m IH]; simpl; [done|].
  destruct (decide (k = k')) as [->|Hne]; simpl; [done|].
  rewrite IH. by destruct (JSMap.get k m).
Qed.

Lemma jsmap_NoDup_set m k v :
  NoDup (JSMap.keys m) → NoDup (JSMap.keys (JSMap.set k v m)).
Proof.
  intros Hnd. rewrite jsmap_keys_set.
  destruct (JSMap.get k m) eqn:Hget; [done|].
  apply NoDup_app. split_and!; [done| |apply NoDup_singleton].
  intros x Hx ->%list_elem_of_singleton.
  by apply jsmap_get_None in Hget.
Qed.

Lemma jsmap_keys_delete_subset m k x :
  x ∈ JSMap.keys (JSMap.delete k m) → x ∈ JSMap.keys m.
Proof.
  unfold JSMap.keys. induction m as [|[k' v'] m IH]; simpl; [done|].
  destruct (decide (k = k')) as [->|Hne]; simpl.
  - apply list_elem_of_further.
  - intros [->|Hin]%elem_of_cons; [apply list_elem_of_here|].
    apply list_elem_of_further. by apply IH.
Qed.

Lemma jsmap_NoDup_delete m k :
  NoDup (JSMap.keys m) → NoDup (JSMap.keys (JSMap.delete k m)).
Proof.
  unfold JSMap.keys. induction m as [|[k' v'] m IH]; simpl; [done|].
  intros [Hk' Hnd]%NoDup_cons.
  destruct (decide (k = k')) as [->|Hne]; simpl; [done|].
  apply NoDup_cons. split; [|by apply IH].
  intros Hin. apply Hk'. by eapply jsmap_keys_delete_subset.
Qed.

Lemma jsmap_get_delete_eq m k :
  NoDup (JSMap.keys m) → JSMap.get k (JSMap.delete k m) = None.
Proof.
  unfold JSMap.keys. induction m as [|[k' v'] m IH]; simpl; [done|].
  intros [Hk' Hnd]%NoDup_cons.
  destruct (decide (k = k')) as [->|Hne]; simpl.
  - by apply jsmap_get_None.
  - rewrite decide_False; [by apply IH | done].
Qed.

Lemma jsmap_get_delete_ne m k k' :
  k ≠ k' → JSMap.get k' (JSMap.delete k m) = JSMap.get k' m.
Proof.
  intros Hne. induction m as [|[k0 v0] m IH]; simpl; [done|].
  destruct (decide (k = k0)) as [->|Hk]; simpl.
  - by rewrite decide_False.
  - by rewrite IH.
Qed.

Lemma jsmap_elem_of_set m k v k' v' :
  (k', v') ∈ JSMap.set k v m → (k', v') = (k, v) ∨ (k', v') ∈ m.
Proof.
  induction m as [|[k0 v0] m IH]; simpl.
  - intros ->%list_elem_of_singleton. by left.
  - destruct (decide (k = k0)) as [->|Hk].
    + intros [->|Hin]%elem_of_cons; [by left|].
      right. by apply list_elem_of_further.
    + intros [->|Hin]%elem_of_cons; [right; apply list_elem_of_here|].
      destruct (IH Hin) as [->|?]; [by left|].
      right. by apply list_elem_of_further.
Qed.

Lemma jsmap_elem_of_delete m k k' v' :
  (k', v') ∈ JSMap.delete k m → (k', v') ∈ m.
Proof.
  induction m as [|[k0 v0] m IH]; simpl; [done|].
  destruct (decide (k = k0)) as [->|Hk].
  - apply list_elem_of_further.
  - intros [->|Hin]%elem_of_cons; [apply list_elem_of_here|].
    apply list_elem_of_further. by apply IH.
Qed.

End jsmap_facts.

(** ** What each operation does to the map and to the log *)
Section projections.
Implicit Types (s : SSRCMap.t) (v data : VoiceUserData) (id : nat).

Lemma onNew_map id v s : SSRCMap.map (SSRCMap.onNew id v s) = SSRCMap.map s.
Proof.
  unfold SSRCMap.onNew. destruct (SSRCMap.calls s !! id) as [c|]; [|done].
  case_decide; [|done]. by destruct (maxTime c).
Qed.

Lemma onNew_emitted id v s :
  SSRCMap.emitted (SSRCMap.onNew id v s) = SSRCMap.emitted s.
Proof.
  unfold SSRCMap.onNew. destruct (SSRCMap.calls s !! id) as [c|]; [|done].
  case_decide; [|done]. by destruct (maxTime c).
Qed.

Lemma foldl_onNew_map v (l : list nat) s :
  SSRCMap.map (foldl (λ acc id, SSRCMap.onNew id v acc) s l) = SSRCMap.map s.
Proof.
  revert s. induction l as [|id l IH]; intros s; simpl; [done|].
  by rewrite IH, onNew_map.
Qed.

Lemma foldl_onNew_emitted v (l : list nat) s :
  SSRCMap.emitted (foldl (λ acc id, SSRCMap.onNew id v acc) s l)
  = SSRCMap.emitted s.
Proof.
  revert s. induction l as [|id l IH]; intros s; simpl; [done|].
  by rewrite IH, onNew_emitted.
Qed.

Lemma update_map data s :
  SSRCMap.map (SSRCMap.update data s) =
  JSMap.set (audioSSRC data)
    (spread (JSMap.get (audioSSRC data) (SSRCMap.map s)) data)
    (SSRCMap.map s).
Proof.
  unfold SSRCMap.update.
  destruct (JSMap.get (audioSSRC data) (SSRCMap.map s)); simpl; [done|].
  unfold SSRCMap.emit_new. by rewrite foldl_onNew_map.
Qed.

Lemma update_emitted data s :
  SSRCMap.emitted (SSRCMap.update data s) =
  SSRCMap.emitted s ++
  match JSMap.get (audioSSRC data) (SSRCMap.map s) with
  | None => [EvNew data; EvUpdate None data]
  | Some e => [EvUpdate (Some e) (spread (Some e) data)]
  end.
Proof.
  unfold SSRCMap.update.
  destruct (JSMap.get (audioSSRC data) (SSRCMap.map s)); simpl; [done|].
  unfold SSRCMap.emit_new. rewrite foldl_onNew_emitted. simpl.
  by rewrite <- app_assoc.
Qed.

Lemma delete_loop_map tgt es s :
  SSRCMap.map (SSRCMap.delete_loop tgt es s).1 = SSRCMap.map s
  ∨ ∃ k, SSRCMap.map (SSRCMap.delete_loop tgt es s).1
         = JSMap.delete k (SSRCMap.map s).
Proof.
  induction es as [|[k d] es IH]; simpl; [by left|].
  case_decide; [right; by exists k | done].
Qed.

Lemma delete_map tgt s :
  SSRCMap.map (SSRCMap.delete tgt s).1 = SSRCMap.map s
  ∨ ∃ k, SSRCMap.map (SSRCMap.delete tgt s).1
         = JSMap.delete k (SSRCMap.map s).
Proof.
  destruct tgt as [n|u]; simpl; [|apply delete_loop_map].
  destruct (JSMap.get n (SSRCMap.map s)); simpl; [right; by exists n|by left].
Qed.

Lemma resolve_map tgt ms s :
  SSRCMap.map (SSRCMap.resolve tgt ms s).1 = SSRCMap.map s.
Proof.
  unfold SSRCMap.resolve.
  destruct (SSRCMap.get (TStr tgt) s); [done|]. by destruct ms.
Qed.

Lemma resolve_emitted tgt ms s :
  SSRCMap.emitted (SSRCMap.resolve tgt ms s).1 = SSRCMap.emitted s.
Proof.
  unfold SSRCMap.resolve.
  destruct (SSRCMap.get (TStr tgt) s); [done|]. by destruct ms.
Qed.

Lemma fire_map id s : SSRCMap.map (SSRCMap.fire id s) = SSRCMap.map s.
Proof.
  unfold SSRCMap.fire, SSRCMap.onTimeout. case_decide; [|done]. simpl.
  destruct (SSRCMap.calls s !! id) as [c|]; [|done].
  by destruct (maxTime c).
Qed.

Lemma fire_emitted id s :
  SSRCMap.emitted (SSRCMap.fire id s) = SSRCMap.emitted s.
Proof.
  unfold SSRCMap.fire, SSRCMap.onTimeout. case_decide; [|done]. simpl.
  destruct (SSRCMap.calls s !! id) as [c|]; [|done].
  by destruct (maxTime c).
Qed.

End projections.

#[global] Arguments SSRCMap.update : simpl never.
#[global] Arguments SSRCMap.delete : simpl never.
#[global] Arguments SSRCMap.resolve : simpl never.
#[global] Arguments SSRCMap.fire : simpl never.
#[global] Arguments SSRCMap.onNew : simpl never.
#[global] Arguments SSRCMap.emit_new : simpl never.

(** ** Runs *)

Lemma run_snoc acts a s : run (acts ++ [a]) s = step (run acts s) a.
Proof. unfold run. by rewrite foldl_app. Qed.

(** Induction over the states a registry can be in. *)
Lemma run_ind (P : SSRCMap.t → Prop) :
  P SSRCMap.init →
  (∀ s a, P s → P (step s a)) →
  ∀ acts, P (run acts SSRCMap.init).
Proof.
  intros Hinit Hstep acts. induction acts as [|a acts IH] using rev_ind.
  - done.
  - rewrite run_snoc. by apply Hstep.
Qed.

(** ** The map of a registry *)

Lemma spread_audioSSRC existing data :
  audioSSRC (spread existing data) = audioSSRC data.
Proof. by destruct existing. Qed.

Lemma map_ok_step s a : map_ok (SSRCMap.map s) → map_ok (SSRCMap.map (step s a)).
Proof.
  intros [Hnd Hkey]. destruct a as [data|tgt|tgt ms|id]; unfold step.
  - rewrite update_map. split; [by apply jsmap_NoDup_set|].
    intros k v [[= -> ->]|Hin]%jsmap_elem_of_set; [|by apply Hkey].
    apply spread_audioSSRC.
  - destruct (delete_map tgt s) as [->|[k ->]]; [done|].
    split; [by apply jsmap_NoDup_delete|].
    intros k' v' Hin%jsmap_elem_of_delete. by apply Hkey.
  - by rewrite resolve_map.
  - by rewrite fire_map.
Qed.

Lemma map_ok_run acts : map_ok (SSRCMap.map (run acts SSRCMap.init)).
Proof.
  apply (run_ind (λ s, map_ok (SSRCMap.map s))); [|apply map_ok_step].
  split; [apply NoDup_nil_2|]. intros k v Hin. by apply elem_of_nil in Hin.
Qed.

Lemma map_ok_get m k v : map_ok m → JSMap.get k m = Some v → audioSSRC v = k.
Proof. intros [_ Hkey] Hget. by apply Hkey, jsmap_get_elem_of. Qed.

(** * The claims about the map *)

(** C1. Merge semantics of [update]: in a registry where the binding [B] is
    stored under the key [K], [update] with a record that has [audioSSRC] [K]
    and [videoSSRC] [V] and no [userId] stores, under [K], [B] with its
    [videoSSRC] replaced by [V]; and in general, [update] with the record
    [{audioSSRC: K, videoSSRC: vid, userId: uid}] stores under [K] the
    binding whose every field is the record's when the record has it, and
    [B]'s when it has not. *)
Theorem update_merge (acts : list Action) (K V : Z) (B : VoiceUserData)
    (vid : property Z) (uid : property string) :
  let s := run acts SSRCMap.init in
  SSRCMap.get (TNum K) s = Some B →
  SSRCMap.get (TNum K)
    (SSRCMap.update (mkVoiceUserData K (Has V) Absent) s)
  = Some (mkVoiceUserData (audioSSRC B) (Has V) (userId B))
  ∧ SSRCMap.get (TNum K) (SSRCMap.update (mkVoiceUserData K vid uid) s)
    = Some (mkVoiceUserData K
              (match vid with Absent => videoSSRC B | _ => vid end)
              (match uid with Absent => userId B | _ => uid end)).
Proof.
  intros s HB. simpl in HB.
  assert (audioSSRC B = K) as HK
    by (eapply map_ok_get; [apply map_ok_run | exact HB]).
  split; cbn [SSRCMap.get]; rewrite update_map, jsmap_get_set_eq;
    cbn [audioSSRC]; rewrite HB; simpl.
  - by rewrite HK.
  - by destruct vid, uid.
Qed.

Lemma update_merge_witness :
  SSRCMap.get (TNum 1)
    (SSRCMap.update (mkVoiceUserData 1 (Has 2%Z) Absent)
       (run [AUpdate (mkVoiceUserData 1 Absent (Has "u1"))] SSRCMap.init))
  = Some (mkVoiceUserData 1 (Has 2%Z) (Has "u1"))
  ∧ SSRCMap.get (TNum 1)
      (SSRCMap.update (mkVoiceUserData 1 Undefined (Has "u2"))
         (run [AUpdate (mkVoiceUserData 1 Absent (Has "u1"))] SSRCMap.init))
    = Some (mkVoiceUserData 1 Undefined (Has "u2")).
Proof.
  apply (update_merge [AUpdate (mkVoiceUserData 1 Absent (Has "u1"))]
           1 2 (mkVoiceUserData 1 Absent (Has "u1")) Undefined (Has "u2")).
  reflexivity.
Defined.

(** C10. Frame property of [update]: the binding stored under any key other
    than [data.audioSSRC] is the same before and after the call, no key that
    had a binding loses it, and the number of stored bindings does not
    decrease. *)
Theorem update_frame (s : SSRCMap.t) (data : VoiceUserData) :
  (∀ k, k ≠ audioSSRC data →
        SSRCMap.get (TNum k) (SSRCMap.update data s) = SSRCMap.get (TNum k) s)
  ∧ (∀ k, is_Some (SSRCMap.get (TNum k) s) →
          is_Some (SSRCMap.get (TNum k) (SSRCMap.update data s)))
  ∧ length (SSRCMap.map s) ≤ length (SSRCMap.map (SSRCMap.update data s)).
Proof.
  split_and!.
  - intros k Hne. cbn [SSRCMap.get]. rewrite update_map.
    by apply jsmap_get_set_ne.
  - intros k Hsome. cbn [SSRCMap.get] in *. rewrite update_map.
    destruct (decide (audioSSRC data = k)) as [<-|Hne].
    + rewrite jsmap_get_set_eq. by eexists.
    + by rewrite jsmap_get_set_ne.
  - rewrite update_map, jsmap_length_set.
    destruct (JSMap.get _ _); lia.
Qed.

Lemma update_frame_witness :
  let s := run [AUpdate (mkVoiceUserData 1 Absent (Has "u1"));
                AUpdate (mkVoiceUserData 2 Absent (Has "u2"))] SSRCMap.init in
  let data := mkVoiceUserData 2 (Has 7%Z) (Has "u3") in
  SSRCMap.get (TNum 1) (SSRCMap.update data s) = SSRCMap.get (TNum 1) s
  ∧ is_Some (SSRCMap.get (TNum 2) (SSRCMap.update data s))
  ∧ length (SSRCMap.map s) ≤ length (SSRCMap.map (SSRCMap.update data s)).
Proof.
  intros s data. destruct (update_frame s data) as (Hother & Hkeep & Hlen).
  split_and!.
  - apply Hother. by vm_compute.
  - apply Hkeep. vm_compute. by eexists.
  - exact Hlen.
Defined.

(** The scan of [get] by user id: the first value that matches. *)
Lemma get_loop_Some u vs d :
  SSRCMap.get_loop u vs = Some d ↔
  ∃ before after,
    vs = before ++ d :: after ∧ userId d = Has u
    ∧ Forall (λ d', userId d' ≠ Has u) before.
Proof.
  induction vs as [|x vs IH]; simpl.
  - split; [done|]. intros (before & after & Heq & _).
    by destruct before.
  - destruct (decide (userId x = Has u)) as [Hx|Hx].
    + split.
      * intros [= ->]. exists [], vs. by split_and!.
      * intros (before & after & Heq & Hd & Hbefore).
        destruct before as [|y before]; simpl in Heq;
          injection Heq as -> Hvs; [done|].
        by apply Forall_cons in Hbefore as [? _].
    + rewrite IH. split.
      * intros (before & after & -> & Hd & Hbefore).
        exists (x :: before), after. split_and!; [done..|].
        by apply Forall_cons.
      * intros (before & after & Heq & Hd & Hbefore).
        destruct before as [|y before]; simpl in Heq;
          injection Heq as -> Hvs; [done|].
        apply Forall_cons in Hbefore as [_ Hbefore].
        by exists before, after.
Qed.

Lemma get_loop_None u vs :
  SSRCMap.get_loop u vs = None ↔ Forall (λ d, userId d ≠ Has u) vs.
Proof.
  induction vs as [|x vs IH]; simpl.
  - split; [by constructor | done].
  - rewrite Forall_cons. destruct (decide (userId x = Has u)) as [Hx|Hx].
    + split; [done | by intros [? _]].
    + rewrite IH. split; [by intros ? | by intros [_ ?]].
Qed.

Lemma update_keys data s :
  JSMap.keys (SSRCMap.map (SSRCMap.update data s)) =
  match SSRCMap.get (TNum (audioSSRC data)) s with
  | Some _ => JSMap.keys (SSRCMap.map s)
  | None => JSMap.keys (SSRCMap.map s) ++ [audioSSRC data]
  end.
Proof. rewrite update_map. apply jsmap_keys_set. Qed.

(** C7. Semantics of [get] in any state of a registry: with a number it
    returns the binding stored under exactly that key, and nothing when the
    key has no entry; with a string it returns the first binding, in the
    iteration order of the map, whose [userId] is that string, and nothing
    when no binding matches.  The iteration order is the order of
    insertion: [update] leaves the keys in place and puts a new key last. *)
Theorem get_semantics (acts : list Action) :
  let s := run acts SSRCMap.init in
  (∀ n d, SSRCMap.get (TNum n) s = Some d ↔
          (n, d) ∈ JSMap.entries (SSRCMap.map s))
  ∧ (∀ n, SSRCMap.get (TNum n) s = None ↔ n ∉ JSMap.keys (SSRCMap.map s))
  ∧ (∀ u d, SSRCMap.get (TStr u) s = Some d ↔
            ∃ before after,
              JSMap.values (SSRCMap.map s) = before ++ d :: after
              ∧ userId d = Has u
              ∧ Forall (λ d', userId d' ≠ Has u) before)
  ∧ (∀ u, SSRCMap.get (TStr u) s = None ↔
          Forall (λ d, userId d ≠ Has u) (JSMap.values (SSRCMap.map s)))
  ∧ (∀ data,
       JSMap.keys (SSRCMap.map (SSRCMap.update data s)) =
       match SSRCMap.get (TNum (audioSSRC data)) s with
       | Some _ => JSMap.keys (SSRCMap.map s)
       | None => JSMap.keys (SSRCMap.map s) ++ [audioSSRC data]
       end).
Proof.
  intros s. destruct (map_ok_run acts) as [Hnd _]. fold s in Hnd.
  split_and!.
  - intros n d. split; [apply jsmap_get_elem_of | by apply jsmap_elem_of_get].
  - intros n. apply jsmap_get_None.
  - intros u d. apply get_loop_Some.
  - intros u. apply get_loop_None.
  - intros data. apply update_keys.
Qed.

Lemma video_ok_spread existing data :
  (∀ e, existing = Some e → video_ok e) → video_ok data →
  video_ok (spread existing data).
Proof.
  intros He Hd. destruct existing as [e|]; [|done].
  intros v. simpl. destruct (videoSSRC data) eqn:Hvid; simpl.
  - by apply He.
  - done.
  - intros [= ->]. by apply Hd.
Qed.

(** C9. Video stream id invariant: when every record passed to [update]
    honours the contract that a [videoSSRC] it has is not 0, every binding
    stored in the registry has a [videoSSRC] that, when it is there, is not
    0. *)
Theorem video_invariant (acts : list Action) :
  Forall honours_contract acts →
  ∀ k d, (k, d) ∈ SSRCMap.map (run acts SSRCMap.init) → video_ok d.
Proof.
  induction acts as [|a acts IH] using rev_ind; intros Hacts k d.
  - intros Hin. by apply elem_of_nil in Hin.
  - apply Forall_app in Hacts as [Hacts Ha].
    apply Forall_inv in Ha. specialize (IH Hacts).
    rewrite run_snoc. destruct a as [data|tgt|tgt ms|id]; unfold step.
    + rewrite update_map.
      intros [[= -> ->]|Hin]%jsmap_elem_of_set; [|by eapply IH].
      apply video_ok_spread; [|exact Ha].
      intros e He. eapply IH. by apply jsmap_get_elem_of.
    + destruct (delete_map tgt (run acts SSRCMap.init)) as [->|[k' ->]].
      * apply IH.
      * intros Hin%jsmap_elem_of_delete. by eapply IH.
    + rewrite resolve_map. apply IH.
    + rewrite fire_map. apply IH.
Qed.

Lemma video_invariant_witness :
  let acts := [AUpdate (mkVoiceUserData 1 Absent (Has "u1"));
               AUpdate (mkVoiceUserData 1 (Has 2%Z) Absent)] in
  Forall honours_contract acts
  ∧ (1%Z, mkVoiceUserData 1 (Has 2%Z) (Has "u1"))
      ∈ SSRCMap.map (run acts SSRCMap.init)
  ∧ video_ok (mkVoiceUserData 1 (Has 2%Z) (Has "u1")).
Proof.
  intros acts.
  assert (Forall honours_contract acts) as Hacts
    by (repeat constructor; intros v; simpl; congruence).
  assert ((1%Z, mkVoiceUserData 1 (Has 2%Z) (Has "u1"))
            ∈ SSRCMap.map (run acts SSRCMap.init)) as Hin
    by (vm_compute; apply list_elem_of_here).
  split_and!; [exact Hacts | exact Hin |].
  exact (video_invariant acts Hacts 1%Z _ Hin).
Defined.

(** ** Runs made of [update] calls only *)

Lemma updates_only_get (ds : list VoiceUserData) (K : Z) :
  JSMap.get K (SSRCMap.map (run (AUpdate <$> ds) SSRCMap.init)) = None
  ↔ K ∉ audioSSRC <$> ds.
Proof.
  induction ds as [|d ds IH] using rev_ind.
  - split; [intros _; apply not_elem_of_nil | done].
  - rewrite !fmap_snoc, run_snoc. cbn [step].
    rewrite update_map, not_elem_of_app, list_elem_of_singleton.
    destruct (decide (audioSSRC d = K)) as [<-|Hne].
    + rewrite jsmap_get_set_eq. split; [done | by intros [_ ?]].
    + rewrite jsmap_get_set_ne, IH by done.
      split; [by intros ? | by intros [? _]].
Qed.

Lemma creations_app K l1 l2 :
  creations K (l1 ++ l2) = creations K l1 + creations K l2.
Proof. unfold creations. by rewrite filter_app, length_app. Qed.

Lemma updates_app K l1 l2 :
  updates K (l1 ++ l2) = updates K l1 + updates K l2.
Proof. unfold updates. by rewrite filter_app, length_app. Qed.

Lemma calls_for_snoc K ds d :
  calls_for K (ds ++ [d]) =
  calls_for K ds + (if decide (audioSSRC d = K) then 1 else 0).
Proof.
  unfold calls_for. rewrite filter_app, length_app. f_equal.
  rewrite filter_cons, filter_nil. by case_decide.
Qed.

(** What one [update] adds to the counts of notifications about a key. *)
Lemma update_counts data s K :
  creations K (SSRCMap.emitted (SSRCMap.update data s)) =
  creations K (SSRCMap.emitted s) +
  (if decide (audioSSRC data = K) then
     match SSRCMap.get (TNum K) s with Some _ => 0 | None => 1 end
   else 0)
  ∧ updates K (SSRCMap.emitted (SSRCMap.update data s)) =
    updates K (SSRCMap.emitted s) +
    (if decide (audioSSRC data = K) then 1 else 0).
Proof.
  rewrite update_emitted, creations_app, updates_app.
  cbn [SSRCMap.get].
  destruct (decide (audioSSRC data = K)) as [<-|Hne].
  - destruct (JSMap.get (audioSSRC data) (SSRCMap.map s)) as [e|];
      unfold creations, updates;
      rewrite !filter_cons, !filter_nil; simpl;
      rewrite ?bool_decide_eq_true_2 by done; done.
  - destruct (JSMap.get (audioSSRC data) (SSRCMap.map s)) as [e|];
      unfold creations, updates;
      rewrite !filter_cons, !filter_nil; simpl;
      rewrite ?bool_decide_eq_false_2 by done; done.
Qed.

Lemma updates_only_counts (ds : list VoiceUserData) (K : Z) :
  let s := run (AUpdate <$> ds) SSRCMap.init in
  creations K (SSRCMap.emitted s)
  = (if decide (K ∈ audioSSRC <$> ds) then 1 else 0)
  ∧ updates K (SSRCMap.emitted s) = calls_for K ds.
Proof.
  induction ds as [|d ds IH] using rev_ind; intros s.
  - split; [|done]. rewrite decide_False; [done|apply not_elem_of_nil].
  - subst s. rewrite !fmap_snoc, run_snoc. cbn [step].
    destruct IH as [IHc IHu].
    destruct (update_counts d (run (AUpdate <$> ds) SSRCMap.init) K)
      as [-> ->].
    rewrite IHc, IHu, calls_for_snoc. split; [|done].
    cbn [SSRCMap.get].
    destruct (decide (audioSSRC d = K)) as [<-|Hne].
    + rewrite (decide_True (P := _ ∈ _ ++ _))
        by (apply elem_of_app; right; apply list_elem_of_here).
      destruct (JSMap.get _ _) eqn:Hget.
      * rewrite decide_True; [done|].
        destruct (decide (audioSSRC d ∈ audioSSRC <$> ds)) as [|Hn]; [done|].
        apply updates_only_get in Hn. congruence.
      * apply updates_only_get in Hget. by rewrite decide_False.
    + destruct (decide (K ∈ audioSSRC <$> ds)) as [Hin|Hnin].
      * rewrite decide_True; [done|]. apply elem_of_app. by left.
      * rewrite decide_False; [done|].
        rewrite not_elem_of_app, list_elem_of_singleton. by split.
Qed.

(** C2. Creation-once and order of notifications, for a registry that has
    seen the [update] calls [ds] and now sees [update(data)], with [K] the
    key of [data] and [nv] the merged binding the call stores: when no
    earlier call named [K], the call emits a creation notification carrying
    [nv] and then an update notification carrying no previous binding and
    [nv]; when an earlier call named [K], it emits no creation notification
    and one update notification carrying the binding stored before and
    [nv].  Over the whole sequence there is one creation notification about
    [K] and one update notification about [K] per call that named [K]. *)
Theorem creation_once (ds : list VoiceUserData) (data : VoiceUserData) :
  let K := audioSSRC data in
  let s := run (AUpdate <$> ds) SSRCMap.init in
  let s' := SSRCMap.update data s in
  (∃ nv, SSRCMap.get (TNum K) s' = Some nv ∧
     match SSRCMap.get (TNum K) s with
     | None =>
         (K ∉ audioSSRC <$> ds)
         ∧ SSRCMap.emitted s'
           = SSRCMap.emitted s ++ [EvNew nv; EvUpdate None nv]
     | Some prev =>
         (K ∈ audioSSRC <$> ds)
         ∧ SSRCMap.emitted s'
           = SSRCMap.emitted s ++ [EvUpdate (Some prev) nv]
     end)
  ∧ creations K (SSRCMap.emitted s') = 1
  ∧ updates K (SSRCMap.emitted s') = S (calls_for K ds).
Proof.
  intros K s s'. split.
  - exists (spread (SSRCMap.get (TNum K) s) data). subst s'.
    cbn [SSRCMap.get]. rewrite update_map, jsmap_get_set_eq, update_emitted.
    split; [done|]. fold K.
    destruct (JSMap.get K (SSRCMap.map s)) as [prev|] eqn:Hget.
    + split; [|done].
      destruct (decide (K ∈ audioSSRC <$> ds)) as [|Hn]; [done|].
      apply updates_only_get in Hn. subst s. congruence.
    + split; [|done]. by apply updates_only_get.
  - subst s'. destruct (update_counts data s K) as [-> ->].
    destruct (updates_only_counts ds K) as [Hc Hu]. fold s in Hc, Hu.
    rewrite Hc, Hu. clear Hc Hu.
    destruct (decide (audioSSRC data = K)) as [_|?]; [|done].
    cbn [SSRCMap.get].
    destruct (JSMap.get K (SSRCMap.map s)) as [prev|] eqn:Hget.
    + split; [|lia].
      rewrite decide_True; [done|].
      destruct (decide (K ∈ audioSSRC <$> ds)) as [|Hn]; [done|].
      apply updates_only_get in Hn. subst s. congruence.
    + apply updates_only_get in Hget.
      rewrite decide_False by done. split; lia.
Qed.

(** Two updates with the same key: one creation and two update
    notifications in all. *)
Example two_updates_same_key :
  let d1 := mkVoiceUserData 1 Absent (Has "u1") in
  let d2 := mkVoiceUserData 1 (Has 2%Z) (Has "u1") in
  SSRCMap.emitted (run [AUpdate d1; AUpdate d2] SSRCMap.init)
  = [EvNew d1; EvUpdate None d1; EvUpdate (Some d1) d2].
Proof. reflexivity. Qed.

(** ** Lookup by user id and removal *)

(** In a map with one entry per key, a binding whose [userId] no binding
    under another key shares is the one the scan by user id finds. *)
Lemma get_by_unique_user (m : JSMap.t) k d u :
  NoDup (JSMap.keys m) →
  JSMap.get k m = Some d →
  userId d = Has u →
  (∀ k' d', k' ≠ k → JSMap.get k' m = Some d' → userId d' ≠ Has u) →
  SSRCMap.get_loop u (JSMap.values m) = Some d.
Proof.
  intros Hnd Hget Hu Huniq. apply get_loop_Some.
  apply jsmap_get_elem_of in Hget as Hin.
  apply list_elem_of_split in Hin as (l1 & l2 & ->).
  exists (snd <$> l1), (snd <$> l2). split_and!.
  - unfold JSMap.values. by rewrite fmap_app.
  - done.
  - apply Forall_forall. intros d' ([k' d''] & -> & Hin)%list_elem_of_fmap_1.
    simpl. apply (Huniq k').
    + intros ->. unfold JSMap.keys in Hnd. rewrite fmap_app in Hnd.
      apply NoDup_app in Hnd as (_ & Hdisj & _).
      apply (Hdisj k).
      * change k with (fst (k, d'')). by apply list_elem_of_fmap_2.
      * csimpl. apply list_elem_of_here.
    + apply jsmap_elem_of_get; [done|].
      apply elem_of_app. by left.
Qed.

Lemma delete_loop_None u es s :
  SSRCMap.get_loop u (snd <$> es) = None →
  SSRCMap.delete_loop u es s = (s, None).
Proof.
  induction es as [|[k d] es IH]; csimpl; [done|].
  case_decide; [done | apply IH].
Qed.

Lemma delete_loop_Some u es s b :
  SSRCMap.get_loop u (snd <$> es) = Some b →
  ∃ k, (k, b) ∈ es
       ∧ SSRCMap.delete_loop u es s
         = (SSRCMap.emit (EvDelete b)
              (SSRCMap.with_map (JSMap.delete k (SSRCMap.map s)) s), Some b).
Proof.
  induction es as [|[k d] es IH]; csimpl; [done|].
  case_decide.
  - intros [= ->]. exists k. split; [apply list_elem_of_here | done].
  - intros (k' & Hin & ->)%IH. exists k'.
    split; [by apply list_elem_of_further | done].
Qed.

(** What [delete] does when [get] finds the binding [b]. *)
Lemma delete_found tgt s b :
  map_ok (SSRCMap.map s) →
  SSRCMap.get tgt s = Some b →
  SSRCMap.delete tgt s
  = (SSRCMap.emit (EvDelete b)
       (SSRCMap.with_map (JSMap.delete (audioSSRC b) (SSRCMap.map s)) s),
     Some b).
Proof.
  intros Hok Hget. destruct tgt as [n|u]; unfold SSRCMap.delete.
  - cbn [SSRCMap.get] in Hget. rewrite Hget.
    by rewrite (map_ok_get _ _ _ Hok Hget).
  - cbn [SSRCMap.get] in Hget. unfold JSMap.entries, JSMap.values in *.
    destruct (delete_loop_Some u _ s b Hget) as (k & Hin & ->).
    destruct Hok as [_ Hkey]. by rewrite (Hkey k b Hin).
Qed.

Lemma delete_not_found tgt s :
  SSRCMap.get tgt s = None → SSRCMap.delete tgt s = (s, None).
Proof.
  intros Hget. destruct tgt as [n|u]; unfold SSRCMap.delete.
  - cbn [SSRCMap.get] in Hget. by rewrite Hget.
  - by apply delete_loop_None.
Qed.

(** After the removal of the entry of [K], no binding is left with a
    [userId] that only the binding of [K] had. *)
Lemma get_loop_delete_unique (m : JSMap.t) K u :
  NoDup (JSMap.keys m) →
  (∀ k d, k ≠ K → JSMap.get k m = Some d → userId d ≠ Has u) →
  SSRCMap.get_loop u (JSMap.values (JSMap.delete K m)) = None.
Proof.
  intros Hnd Huniq. apply get_loop_None, Forall_forall.
  intros d ([k d'] & -> & Hin)%list_elem_of_fmap_1. simpl.
  apply (Huniq k).
  - intros ->.
    pose proof (jsmap_get_delete_eq m K Hnd) as Hnone.
    apply jsmap_get_None in Hnone. apply Hnone.
    change K with (fst (K, d')). by apply list_elem_of_fmap_2.
  - apply jsmap_elem_of_get; [done|]. by eapply jsmap_elem_of_delete.
Qed.

(** C6, as the code has it. Delete removes and reports, in any state of a
    registry: when [get] finds a binding [b] for the target, [delete]
    returns [b], emits one deletion notification carrying [b], removes the
    entry of [b] and no other, and afterwards [get] by the key of [b]
    returns nothing; [get] by the same user id returns nothing provided no
    binding under another key has that user id.  When [get] finds no
    binding, [delete] returns nothing and changes nothing, so it emits
    nothing. *)
Theorem delete_removes_and_reports (acts : list Action) (tgt : Target) :
  let s := run acts SSRCMap.init in
  let s' := (SSRCMap.delete tgt s).1 in
  match SSRCMap.get tgt s with
  | Some b =>
      (SSRCMap.delete tgt s).2 = Some b
      ∧ SSRCMap.emitted s' = SSRCMap.emitted s ++ [EvDelete b]
      ∧ SSRCMap.map s' = JSMap.delete (audioSSRC b) (SSRCMap.map s)
      ∧ SSRCMap.get (TNum (audioSSRC b)) s' = None
      ∧ (∀ k, k ≠ audioSSRC b →
              SSRCMap.get (TNum k) s' = SSRCMap.get (TNum k) s)
      ∧ match tgt with
        | TNum n => SSRCMap.get (TNum n) s' = None
        | TStr u =>
            (∀ k d, k ≠ audioSSRC b → SSRCMap.get (TNum k) s = Some d →
                    userId d ≠ Has u) →
            SSRCMap.get (TStr u) s' = None
        end
  | None => SSRCMap.delete tgt s = (s, None)
  end.
Proof.
  intros s s'. pose proof (map_ok_run acts) as Hok. fold s in Hok.
  destruct (SSRCMap.get tgt s) as [b|] eqn:Hget;
    [|by apply delete_not_found].
  subst s'. rewrite (delete_found tgt s b Hok Hget). cbn [fst snd].
  destruct Hok as [Hnd Hkey].
  split_and!; [done..| | |].
  - by apply jsmap_get_delete_eq.
  - intros k Hne. by apply jsmap_get_delete_ne.
  - destruct tgt as [n|u].
    + cbn [SSRCMap.get] in Hget.
      rewrite <- (map_ok_get _ _ _ (conj Hnd Hkey) Hget) at 1.
      by apply jsmap_get_delete_eq.
    + intros Huniq. by apply get_loop_delete_unique.
Qed.

Lemma delete_removes_and_reports_witness :
  let d1 := mkVoiceUserData 1 Absent (Has "u1") in
  let d2 := mkVoiceUserData 2 Absent (Has "u2") in
  let s := run [AUpdate d1; AUpdate d2] SSRCMap.init in
  let s' := (SSRCMap.delete (TStr "u1") s).1 in
  (SSRCMap.delete (TStr "u1") s).2 = Some d1
  ∧ SSRCMap.emitted s' = SSRCMap.emitted s ++ [EvDelete d1]
  ∧ SSRCMap.get (TNum 2) s' = SSRCMap.get (TNum 2) s
  ∧ SSRCMap.get (TStr "u1") s' = None.
Proof.
  intros d1 d2 s s'.
  pose proof (delete_removes_and_reports [AUpdate d1; AUpdate d2] (TStr "u1"))
    as H.
  cbv zeta in H. fold s in H.
  change (SSRCMap.get (TStr "u1") s) with (Some d1) in H.
  destruct H as (Hret & Hlog & _ & _ & Hother & Hgone).
  split_and!; [exact Hret | exact Hlog | |].
  - apply Hother. by vm_compute.
  - apply Hgone. intros k d Hk. vm_compute in Hk.
    cbn [SSRCMap.get]. change (SSRCMap.map s) with [(1%Z, d1); (2%Z, d2)].
    simpl. repeat case_decide; try done.
    intros [= <-]. simpl. congruence.
Defined.

(** C6 as stated fails for a user id that two bindings share: [delete] by
    that user id succeeds, and [get] by the same user id still finds a
    binding. *)
Lemma delete_by_shared_user_not_absent :
  let d1 := mkVoiceUserData 1 Absent (Has "u") in
  let d2 := mkVoiceUserData 2 Absent (Has "u") in
  let s := run [AUpdate d1; AUpdate d2] SSRCMap.init in
  (SSRCMap.delete (TStr "u") s).2 = Some d1
  ∧ SSRCMap.get (TStr "u") (SSRCMap.delete (TStr "u") s).1 = Some d2
  ∧ SSRCMap.get (TStr "u") (SSRCMap.delete (TStr "u") s).1 ≠ None.
Proof. vm_compute. by split_and!. Qed.

(** C3, as the code has it. Dual-key equivalence: after [update(data)], when
    the binding stored under the key of [data] has the user id [u] and no
    binding under another key has it, [get] by that key and [get] by [u]
    return the same result. *)
Theorem dual_key_equivalence (acts : list Action) (data nv : VoiceUserData)
    (u : string) :
  let K := audioSSRC data in
  let s' := SSRCMap.update data (run acts SSRCMap.init) in
  SSRCMap.get (TNum K) s' = Some nv →
  userId nv = Has u →
  (∀ k d, k ≠ K → SSRCMap.get (TNum k) s' = Some d → userId d ≠ Has u) →
  SSRCMap.get (TStr u) s' = SSRCMap.get (TNum K) s'.
Proof.
  intros K s' Hget Hu Huniq.
  pose proof (map_ok_run (acts ++ [AUpdate data])) as [Hnd _].
  rewrite run_snoc in Hnd. cbn [step] in Hnd. fold s' in Hnd.
  rewrite Hget. cbn [SSRCMap.get] in *.
  by apply (get_by_unique_user _ K).
Qed.

Lemma dual_key_equivalence_witness :
  let d1 := mkVoiceUserData 1 Absent (Has "u1") in
  let d2 := mkVoiceUserData 2 Absent (Has "u2") in
  let s' := SSRCMap.update d2 (run [AUpdate d1] SSRCMap.init) in
  SSRCMap.get (TNum 2) s' = Some d2
  ∧ SSRCMap.get (TStr "u2") s' = SSRCMap.get (TNum 2) s'.
Proof.
  intros d1 d2 s'.
  assert (SSRCMap.get (TNum 2) s' = Some d2) as Hget by reflexivity.
  split; [exact Hget|].
  apply (dual_key_equivalence [AUpdate d1] d2 d2 "u2" Hget eq_refl).
  intros k d Hk. cbn [SSRCMap.get].
  change (SSRCMap.map s') with [(1%Z, d1); (2%Z, d2)].
  simpl. repeat case_decide; try done.
  intros [= <-]. simpl. congruence.
Defined.

(** C3 as stated fails when two bindings share a user id: the binding that
    [update] just stored under key 2 is what [get(2)] returns, and [get] by
    its user id returns the older binding of key 1. *)
Lemma dual_key_shared_user_differ :
  let d1 := mkVoiceUserData 1 Absent (Has "u") in
  let d2 := mkVoiceUserData 2 Absent (Has "u") in
  let s' := SSRCMap.update d2 (run [AUpdate d1] SSRCMap.init) in
  SSRCMap.get (TNum 2) s' = Some d2
  ∧ SSRCMap.get (TStr "u") s' = Some d1
  ∧ SSRCMap.get (TNum 2) s' ≠ SSRCMap.get (TStr "u") s'.
Proof. vm_compute. by split_and!. Qed.

(** * The calls of [resolve] *)

Section calls_invariant.
Implicit Types (s : SSRCMap.t) (id j : nat) (c : Call) (v : VoiceUserData).

Lemma elem_of_filter_ne (l : list nat) id j :
  j ∈ filter (λ i, i ≠ id) l ↔ j ∈ l ∧ j ≠ id.
Proof. rewrite list_elem_of_filter. tauto. Qed.

Lemma call_ok_ext s s' id c :
  (id ∈ SSRCMap.listeners s ↔ id ∈ SSRCMap.listeners s') →
  (id ∈ SSRCMap.timers s ↔ id ∈ SSRCMap.timers s') →
  call_ok s id c → call_ok s' id c.
Proof.
  unfold call_ok. intros Hl Ht. destruct (promise c).
  - intros (? & ? & ?). split_and!; [tauto | tauto | done].
  - intros (? & ? & ? & ?). split_and!; [tauto | tauto | done | done].
  - intros (? & ? & ? & ?). split_and!; [tauto | tauto | done | done].
Qed.

(** A listener that is registered belongs to a call whose promise is
    pending, and so does a timer that is armed. *)
Lemma listener_pending s id :
  calls_ok s → id ∈ SSRCMap.listeners s →
  ∃ c, SSRCMap.calls s !! id = Some c ∧ promise c = Pending.
Proof.
  intros (_ & Hbound & Hcalls) Hin.
  destruct (lookup_lt_is_Some_2 (SSRCMap.calls s) id) as [c Hc];
    [apply Hbound; by left|].
  exists c. split; [done|]. specialize (Hcalls id c Hc).
  unfold call_ok in Hcalls. destruct (promise c); [done|..];
    by destruct Hcalls as (? & _).
Qed.

Lemma timer_pending s id :
  calls_ok s → id ∈ SSRCMap.timers s →
  ∃ c ms, SSRCMap.calls s !! id = Some c ∧ promise c = Pending
          ∧ maxTime c = Some ms.
Proof.
  intros (_ & Hbound & Hcalls) Hin.
  destruct (lookup_lt_is_Some_2 (SSRCMap.calls s) id) as [c Hc];
    [apply Hbound; by right|].
  specialize (Hcalls id c Hc). unfold call_ok in Hcalls.
  destruct (promise c) eqn:Hp.
  - destruct Hcalls as (_ & Hiff & _).
    destruct (proj1 Hiff Hin) as [ms Hms]. by exists c, ms.
  - by destruct Hcalls as (_ & ? & _).
  - by destruct Hcalls as (_ & ? & _).
Qed.

(** Settling the pending promise of call [id] while removing its listener
    and its timer keeps the calls consistent. *)
Lemma retire_ok s s' id c st :
  calls_ok s →
  SSRCMap.calls s !! id = Some c → promise c = Pending →
  settled_by c st →
  SSRCMap.listeners s' = filter (λ i, i ≠ id) (SSRCMap.listeners s) →
  (∀ j, j ∈ SSRCMap.timers s' ↔ j ∈ SSRCMap.timers s ∧ j ≠ id) →
  SSRCMap.calls s' = alter (SSRCMap.settle_call st) id (SSRCMap.calls s) →
  calls_ok s'.
Proof.
  intros (Hnd & Hbound & Hcalls) Hc Hp Hst Hl Ht Hcs.
  unfold calls_ok. rewrite Hl, Hcs, length_alter. split_and!.
  - by apply NoDup_filter.
  - intros j [Hj|Hj]; apply Hbound.
    + left. by apply elem_of_filter_ne in Hj as [? _].
    + right. by apply Ht in Hj as [? _].
  - intros j cj. destruct (decide (j = id)) as [->|Hne].
    + rewrite list_lookup_alter_eq, Hc. intros [= <-].
      unfold call_ok, SSRCMap.settle_call. cbn [promise settles target maxTime].
      rewrite Hp. specialize (Hcalls id c Hc). unfold call_ok in Hcalls.
      rewrite Hp in Hcalls. destruct Hcalls as (_ & _ & ->).
      destruct st; [done|..]; rewrite Hl;
        (split_and!;
         [rewrite elem_of_filter_ne; tauto | rewrite Ht; tauto
         | lia | exact Hst]).
    + rewrite list_lookup_alter_ne by done. intros Hcj.
      apply (call_ok_ext s); [| |by apply Hcalls].
      * rewrite Hl, elem_of_filter_ne. tauto.
      * rewrite Ht. tauto.
Qed.

Lemma onNew_match id v s c :
  SSRCMap.calls s !! id = Some c → userId v = Has (target c) →
  SSRCMap.onNew id v s =
  SSRCMap.settle id (Fulfilled v)
    (match maxTime c with
     | Some _ => SSRCMap.clearTimeout id (SSRCMap.off id s)
     | None => SSRCMap.off id s
     end).
Proof.
  intros Hc Hv. unfold SSRCMap.onNew. by rewrite Hc, decide_True.
Qed.

Lemma onNew_no_match id v s c :
  SSRCMap.calls s !! id = Some c → userId v ≠ Has (target c) →
  SSRCMap.onNew id v s = s.
Proof.
  intros Hc Hv. unfold SSRCMap.onNew. by rewrite Hc, decide_False.
Qed.

Lemma onNew_ok id v s :
  calls_ok s → id ∈ SSRCMap.listeners s → calls_ok (SSRCMap.onNew id v s).
Proof.
  intros Hok Hin. destruct (listener_pending s id Hok Hin) as (c & Hc & Hp).
  destruct (decide (userId v = Has (target c))) as [Hv|Hv];
    [|by rewrite (onNew_no_match id v s c)].
  rewrite (onNew_match id v s c Hc Hv).
  apply (retire_ok s _ id c (Fulfilled v) Hok Hc Hp Hv).
  - by destruct (maxTime c).
  - intros j. destruct (maxTime c) eqn:Hms; simpl.
    + apply elem_of_filter_ne.
    + destruct Hok as (_ & _ & Hcalls). specialize (Hcalls id c Hc).
      unfold call_ok in Hcalls. rewrite Hp, Hms in Hcalls.
      destruct Hcalls as (_ & Hiff & _).
      split; [|tauto]. intros Hj. split; [done|]. intros ->.
      by apply Hiff, is_Some_None in Hj.
  - by destruct (maxTime c).
Qed.

Lemma onNew_listeners id v s :
  SSRCMap.listeners (SSRCMap.onNew id v s) = SSRCMap.listeners s
  ∨ SSRCMap.listeners (SSRCMap.onNew id v s)
    = filter (λ i, i ≠ id) (SSRCMap.listeners s).
Proof.
  unfold SSRCMap.onNew. destruct (SSRCMap.calls s !! id) as [c|]; [|by left].
  case_decide; [|by left]. right. by destruct (maxTime c).
Qed.

Lemma foldl_onNew_ok v (l : list nat) s :
  calls_ok s → NoDup l → l ⊆ SSRCMap.listeners s →
  calls_ok (foldl (λ acc id, SSRCMap.onNew id v acc) s l).
Proof.
  revert s. induction l as [|id l IH]; intros s Hok Hnd Hsub; simpl; [done|].
  apply NoDup_cons in Hnd as [Hid Hnd].
  apply IH; [|done|].
  - apply onNew_ok; [done|]. apply Hsub, list_elem_of_here.
  - intros j Hj.
    assert (j ∈ SSRCMap.listeners s) as Hjs
      by (by apply Hsub, list_elem_of_further).
    destruct (onNew_listeners id v s) as [->| ->]; [done|].
    apply elem_of_filter_ne. split; [done|]. by intros ->.
Qed.

Lemma emit_new_ok v s : calls_ok s → calls_ok (SSRCMap.emit_new v s).
Proof.
  intros Hok. unfold SSRCMap.emit_new.
  apply foldl_onNew_ok; [exact Hok | by destruct Hok | done].
Qed.

Lemma update_ok data s : calls_ok s → calls_ok (SSRCMap.update data s).
Proof.
  intros Hok. unfold SSRCMap.update.
  destruct (JSMap.get (audioSSRC data) (SSRCMap.map s)); [done|].
  by apply (emit_new_ok _ (SSRCMap.with_map _ s)).
Qed.

Lemma delete_calls tgt s :
  SSRCMap.listeners (SSRCMap.delete tgt s).1 = SSRCMap.listeners s
  ∧ SSRCMap.timers (SSRCMap.delete tgt s).1 = SSRCMap.timers s
  ∧ SSRCMap.calls (SSRCMap.delete tgt s).1 = SSRCMap.calls s.
Proof.
  destruct tgt as [n|u]; unfold SSRCMap.delete.
  - by destruct (JSMap.get n (SSRCMap.map s)).
  - generalize (JSMap.entries (SSRCMap.map s)).
    intros es. induction es as [|[k d] es IH]; simpl; [done|].
    by case_decide.
Qed.

Lemma delete_ok tgt s : calls_ok s → calls_ok (SSRCMap.delete tgt s).1.
Proof.
  destruct (delete_calls tgt s) as (Hl & Ht & Hc).
  unfold calls_ok, call_ok. by rewrite Hl, Ht, Hc.
Qed.

Lemma get_loop_userId u vs d :
  SSRCMap.get_loop u vs = Some d → userId d = Has u.
Proof. by intros (_ & _ & _ & ? & _)%get_loop_Some. Qed.

Lemma fresh_id s :
  calls_ok s →
  (length (SSRCMap.calls s) ∉ SSRCMap.listeners s)
  ∧ (length (SSRCMap.calls s) ∉ SSRCMap.timers s).
Proof.
  intros (_ & Hbound & _).
  split; intros Hin;
    [specialize (Hbound _ (or_introl Hin))
    |specialize (Hbound _ (or_intror Hin))]; lia.
Qed.

(** The two paths of [resolve]. *)
Lemma resolve_found tgt ms s existing :
  SSRCMap.get (TStr tgt) s = Some existing →
  SSRCMap.resolve tgt ms s
  = (SSRCMap.with_calls
       (SSRCMap.calls s ++ [mkCall tgt ms (Fulfilled existing) 0]) s,
     length (SSRCMap.calls s)).
Proof. intros Hget. unfold SSRCMap.resolve. by rewrite Hget. Qed.

Lemma resolve_not_found tgt ms s :
  SSRCMap.get (TStr tgt) s = None →
  (SSRCMap.resolve tgt ms s).2 = length (SSRCMap.calls s)
  ∧ SSRCMap.listeners (SSRCMap.resolve tgt ms s).1
    = SSRCMap.listeners s ++ [length (SSRCMap.calls s)]
  ∧ SSRCMap.timers (SSRCMap.resolve tgt ms s).1
    = SSRCMap.timers s ++
      match ms with Some _ => [length (SSRCMap.calls s)] | None => [] end
  ∧ SSRCMap.calls (SSRCMap.resolve tgt ms s).1
    = SSRCMap.calls s ++ [mkCall tgt ms Pending 0].
Proof.
  intros Hget. unfold SSRCMap.resolve. rewrite Hget.
  destruct ms; cbn; by rewrite ?app_nil_r.
Qed.

Lemma resolve_ok tgt ms s : calls_ok s → calls_ok (SSRCMap.resolve tgt ms s).1.
Proof.
  intros Hok. destruct (fresh_id s Hok) as [Hfl Hft].
  destruct Hok as (Hnd & Hbound & Hcalls).
  assert (∀ id, id ∈ SSRCMap.listeners s → id ≠ length (SSRCMap.calls s))
    as Hl_ne by (by intros id Hid ->).
  assert (∀ id, id ∈ SSRCMap.timers s → id ≠ length (SSRCMap.calls s))
    as Ht_ne by (by intros id Hid ->).
  destruct (SSRCMap.get (TStr tgt) s) as [existing|] eqn:Hget.
  - rewrite (resolve_found _ _ _ _ Hget). cbn [fst].
    unfold calls_ok. cbn. rewrite length_app. cbn. split_and!; [done| |].
    + intros id Hid. specialize (Hbound id Hid). lia.
    + intros id c Hc. apply lookup_snoc_Some in Hc as [[Hlt Hc]|[-> <-]].
      * by apply (call_ok_ext s); [..|apply Hcalls].
      * unfold call_ok. cbn. split_and!; [done | done | lia |].
        by eapply get_loop_userId.
  - destruct (resolve_not_found tgt ms s Hget) as (_ & Hl & Ht & Hc).
    assert (∀ id, id < length (SSRCMap.calls s) →
              id ∉ match ms with
                   | Some _ => [length (SSRCMap.calls s)]
                   | None => []
                   end) as Hnew.
    { intros id Hlt. destruct ms; [|apply not_elem_of_nil].
      rewrite list_elem_of_singleton. lia. }
    unfold calls_ok. rewrite Hc, length_app. cbn [length]. split_and!.
    + rewrite Hl. apply NoDup_app. split_and!; [done| |apply NoDup_singleton].
      by intros x Hx ->%list_elem_of_singleton.
    + intros id. rewrite Hl, Ht, !elem_of_app, list_elem_of_singleton.
      intros [[Hid| ->]|[Hid|Hid]]; try lia.
      * specialize (Hbound id (or_introl Hid)). lia.
      * specialize (Hbound id (or_intror Hid)). lia.
      * destruct ms; [apply list_elem_of_singleton in Hid; lia|].
        by apply elem_of_nil in Hid.
    + intros id c Hlook.
      apply lookup_snoc_Some in Hlook as [[Hlt Hlook]|[-> <-]].
      * apply (call_ok_ext s); [| |by apply Hcalls].
        -- rewrite Hl, elem_of_app, list_elem_of_singleton.
           split; [by left | intros [?|?]; [done|lia]].
        -- rewrite Ht, elem_of_app.
           split; [by left | intros [?|?]; [done|by apply Hnew in Hlt]].
      * unfold call_ok. cbn [promise maxTime settles].
        rewrite Hl, Ht, !elem_of_app, list_elem_of_singleton.
        split_and!; [by right| |done].
        split.
        -- intros [?|Hin]; [done|]. destruct ms; [by eexists|].
           by apply elem_of_nil in Hin.
        -- intros [x ->]. right. apply list_elem_of_here.
Qed.

Lemma fire_armed id s c ms :
  id ∈ SSRCMap.timers s →
  SSRCMap.calls s !! id = Some c → maxTime c = Some ms →
  SSRCMap.fire id s =
  SSRCMap.settle id (Rejected (DidNotFindSSRC (target c) ms))
    (SSRCMap.off id (SSRCMap.clearTimeout id s)).
Proof.
  intros Hin Hc Hms. unfold SSRCMap.fire, SSRCMap.onTimeout.
  rewrite decide_True by done. cbn [SSRCMap.calls SSRCMap.clearTimeout
    SSRCMap.with_timers]. by rewrite Hc, Hms.
Qed.

Lemma fire_not_armed id s : id ∉ SSRCMap.timers s → SSRCMap.fire id s = s.
Proof. intros Hin. unfold SSRCMap.fire. by rewrite decide_False. Qed.

Lemma fire_ok id s : calls_ok s → calls_ok (SSRCMap.fire id s).
Proof.
  intros Hok. destruct (decide (id ∈ SSRCMap.timers s)) as [Hin|Hin];
    [|by rewrite fire_not_armed].
  destruct (timer_pending s id Hok Hin) as (c & ms & Hc & Hp & Hms).
  rewrite (fire_armed id s c ms Hin Hc Hms).
  apply (retire_ok s _ id c (Rejected (DidNotFindSSRC (target c) ms))
           Hok Hc Hp); [by exists ms|done| |done].
  intros j. cbn. apply elem_of_filter_ne.
Qed.

Lemma calls_ok_step s a : calls_ok s → calls_ok (step s a).
Proof.
  intros Hok. destruct a as [data|tgt|tgt ms|id]; unfold step.
  - by apply update_ok.
  - by apply delete_ok.
  - by apply resolve_ok.
  - by apply fire_ok.
Qed.

Lemma calls_ok_init : calls_ok SSRCMap.init.
Proof.
  unfold calls_ok. cbn. split_and!.
  - apply NoDup_nil_2.
  - intros id [Hin|Hin]; by apply elem_of_nil in Hin.
  - intros id c Hc. by rewrite lookup_nil in Hc.
Qed.

Lemma calls_ok_run acts : calls_ok (run acts SSRCMap.init).
Proof. apply run_ind; [apply calls_ok_init | apply calls_ok_step]. Qed.

Lemma calls_ok_run_from acts s : calls_ok s → calls_ok (run acts s).
Proof.
  revert s. induction acts as [|a acts IH]; intros s Hok; [done|].
  apply IH. by apply calls_ok_step.
Qed.

End calls_invariant.

(** ** How the calls change along a run *)
Section calls_along_runs.
Implicit Types (s : SSRCMap.t) (id j : nat) (c : Call) (v : VoiceUserData).

Lemma settle_lookup id j st s :
  SSRCMap.calls (SSRCMap.settle id st s) !! j =
  if decide (id = j) then SSRCMap.settle_call st <$> SSRCMap.calls s !! j
  else SSRCMap.calls s !! j.
Proof.
  unfold SSRCMap.settle. cbn [SSRCMap.calls SSRCMap.with_calls].
  case_decide as Hj.
  - subst. apply list_lookup_alter_eq.
  - by apply list_lookup_alter_ne.
Qed.

Lemma onNew_calls_ne id j v s :
  j ≠ id → SSRCMap.calls (SSRCMap.onNew j v s) !! id = SSRCMap.calls s !! id.
Proof.
  intros Hne. unfold SSRCMap.onNew.
  destruct (SSRCMap.calls s !! j) as [c|] eqn:Hc; [|done].
  case_decide; [|done]. rewrite settle_lookup, decide_False by done.
  by destruct (maxTime c).
Qed.

Lemma foldl_onNew_calls_other v (l : list nat) s id :
  id ∉ l →
  SSRCMap.calls (foldl (λ acc j, SSRCMap.onNew j v acc) s l) !! id
  = SSRCMap.calls s !! id.
Proof.
  revert s. induction l as [|j l IH]; intros s Hnin; simpl; [done|].
  apply not_elem_of_cons in Hnin as [Hne Hnin].
  rewrite IH by done. by apply onNew_calls_ne.
Qed.

(** One [onNew] closure running on a creation notification: the call
    [id] keeps its captured variables, and its promise either stays as it
    is or goes from pending to fulfilled with the binding notified, whose
    [userId] is then the target of the call. *)
Lemma onNew_call id j v s c :
  SSRCMap.calls s !! id = Some c →
  ∃ c', SSRCMap.calls (SSRCMap.onNew j v s) !! id = Some c'
        ∧ target c' = target c ∧ maxTime c' = maxTime c
        ∧ (promise c' = promise c
           ∨ (promise c = Pending ∧ promise c' = Fulfilled v
              ∧ userId v = Has (target c))).
Proof.
  intros Hc. destruct (decide (j = id)) as [->|Hne].
  - unfold SSRCMap.onNew. rewrite Hc. case_decide as Hv.
    + rewrite settle_lookup, decide_True by done.
      assert (SSRCMap.calls
                (match maxTime c with
                 | Some _ => SSRCMap.clearTimeout id (SSRCMap.off id s)
                 | None => SSRCMap.off id s
                 end) = SSRCMap.calls s) as -> by (by destruct (maxTime c)).
      rewrite Hc. eexists. split; [done|]. cbn.
      split_and!; [done..|]. destruct (promise c); auto.
    + exists c. auto.
  - rewrite onNew_calls_ne by done. exists c. auto.
Qed.

Lemma foldl_onNew_call v (l : list nat) s id c :
  SSRCMap.calls s !! id = Some c →
  ∃ c', SSRCMap.calls (foldl (λ acc j, SSRCMap.onNew j v acc) s l) !! id
        = Some c'
        ∧ target c' = target c ∧ maxTime c' = maxTime c
        ∧ (promise c' = promise c
           ∨ (promise c = Pending ∧ promise c' = Fulfilled v
              ∧ userId v = Has (target c))).
Proof.
  revert s c. induction l as [|j l IH]; intros s c Hc; simpl.
  - exists c. auto.
  - destruct (onNew_call id j v s c Hc) as (c1 & Hc1 & Ht1 & Hm1 & Hp1).
    destruct (IH _ c1 Hc1) as (c2 & Hc2 & Ht2 & Hm2 & Hp2).
    exists c2. split_and!; [done|congruence|congruence|].
    destruct Hp2 as [Hp2|(Hp2 & Hp2' & Hv2)].
    + rewrite Hp2. destruct Hp1 as [?|(? & ? & ?)]; auto.
    + destruct Hp1 as [Hp1|(_ & Hp1 & _)]; [|congruence].
      right. rewrite <- Hp1, <- Ht1. auto.
Qed.

(** The same for one action of a run: the only way to a fulfilled promise
    is a creation notification. *)
Lemma step_call s a id c :
  SSRCMap.calls s !! id = Some c →
  ∃ c', SSRCMap.calls (step s a) !! id = Some c'
        ∧ target c' = target c ∧ maxTime c' = maxTime c
        ∧ (promise c' = promise c
           ∨ (promise c = Pending
              ∧ ((∃ data, a = AUpdate data
                          ∧ SSRCMap.get (TNum (audioSSRC data)) s = None
                          ∧ promise c' = Fulfilled data
                          ∧ userId data = Has (target c))
                 ∨ (∃ ms, a = ATimer id ∧ maxTime c = Some ms
                          ∧ promise c'
                            = Rejected (DidNotFindSSRC (target c) ms))))).
Proof.
  intros Hc. destruct a as [data|tgt|tgt ms|j]; unfold step.
  - unfold SSRCMap.update. cbn [SSRCMap.get].
    destruct (JSMap.get (audioSSRC data) (SSRCMap.map s)) eqn:Hget.
    + exists c. cbn. auto.
    + unfold SSRCMap.emit. cbn [SSRCMap.calls SSRCMap.with_emitted].
      unfold SSRCMap.emit_new.
      edestruct (foldl_onNew_call data (SSRCMap.listeners s)
                   (SSRCMap.with_emitted
                      (SSRCMap.emitted s ++ [EvNew data])
                      (SSRCMap.with_map
                         (JSMap.set (audioSSRC data) data (SSRCMap.map s))
                         s)) id c Hc)
        as (c' & Hc' & Ht & Hm & Hp).
      exists c'. split_and!; [exact Hc'|done|done|].
      destruct Hp as [?|(? & ? & ?)]; [by left|].
      right. split; [done|]. left. by exists data.
  - destruct (delete_calls tgt s) as (_ & _ & ->). exists c. auto.
  - exists c. split_and!; [|done|done|by left].
    unfold SSRCMap.resolve.
    destruct (SSRCMap.get (TStr tgt) s); [|destruct ms]; cbn;
      by apply lookup_app_l_Some.
  - unfold SSRCMap.fire. case_decide as Hin; [|exists c; auto].
    unfold SSRCMap.onTimeout.
    cbn [SSRCMap.calls SSRCMap.clearTimeout SSRCMap.with_timers].
    destruct (SSRCMap.calls s !! j) as [cj|] eqn:Hcj; [|exists c; auto].
    destruct (maxTime cj) as [ms|] eqn:Hms; [|exists c; auto].
    rewrite settle_lookup.
    change (SSRCMap.calls (SSRCMap.off j (SSRCMap.clearTimeout j s)))
      with (SSRCMap.calls s).
    case_decide as Hj; [|exists c; auto].
    subst j. rewrite Hc. eexists. split; [done|]. cbn.
    assert (cj = c) as -> by congruence.
    split_and!; [done..|]. destruct (promise c); auto.
    right. split; [done|]. right. by exists ms.
Qed.

Lemma run_call acts s id c :
  SSRCMap.calls s !! id = Some c →
  ∃ c', SSRCMap.calls (run acts s) !! id = Some c'
        ∧ target c' = target c ∧ maxTime c' = maxTime c.
Proof.
  revert s c. induction acts as [|a acts IH]; intros s c Hc.
  - exists c. auto.
  - destruct (step_call s a id c Hc) as (c1 & Hc1 & Ht1 & Hm1 & _).
    destruct (IH _ c1 Hc1) as (c2 & Hc2 & Ht2 & Hm2).
    exists c2. split_and!; [done|congruence..].
Qed.

(** A call whose promise is settled is never touched again. *)
Lemma step_settled s a id c :
  calls_ok s →
  SSRCMap.calls s !! id = Some c → promise c ≠ Pending →
  SSRCMap.calls (step s a) !! id = Some c.
Proof.
  intros Hok Hc Hp.
  assert ((id ∉ SSRCMap.listeners s) ∧ (id ∉ SSRCMap.timers s)) as [Hl Ht].
  { destruct Hok as (_ & _ & Hcalls). specialize (Hcalls id c Hc).
    unfold call_ok in Hcalls. destruct (promise c); [done|..];
      by destruct Hcalls as (? & ? & _). }
  destruct a as [data|tgt|tgt ms|j]; unfold step.
  - unfold SSRCMap.update.
    destruct (JSMap.get (audioSSRC data) (SSRCMap.map s)); [done|].
    unfold SSRCMap.emit, SSRCMap.emit_new.
    cbn [SSRCMap.calls SSRCMap.with_emitted].
    by rewrite foldl_onNew_calls_other.
  - by destruct (delete_calls tgt s) as (_ & _ & ->).
  - unfold SSRCMap.resolve.
    destruct (SSRCMap.get (TStr tgt) s); [|destruct ms]; cbn;
      by apply lookup_app_l_Some.
  - unfold SSRCMap.fire. case_decide as Hin; [|done].
    assert (j ≠ id) as Hne by (by intros ->).
    unfold SSRCMap.onTimeout.
    cbn [SSRCMap.calls SSRCMap.clearTimeout SSRCMap.with_timers].
    destruct (SSRCMap.calls s !! j) as [cj|]; [|done].
    destruct (maxTime cj); [|done].
    rewrite settle_lookup, decide_False by done. exact Hc.
Qed.

Lemma run_settled acts s id c :
  calls_ok s →
  SSRCMap.calls s !! id = Some c → promise c ≠ Pending →
  SSRCMap.calls (run acts s) !! id = Some c.
Proof.
  revert s. induction acts as [|a acts IH]; intros s Hok Hc Hp; [done|].
  apply IH; [by apply calls_ok_step | by apply step_settled | done].
Qed.

(** A creation notification that matches the target of a pending call
    whose listener is in the array being run fulfils its promise. *)
Lemma foldl_onNew_fulfils v (l : list nat) s id c :
  NoDup l → id ∈ l →
  SSRCMap.calls s !! id = Some c → promise c = Pending →
  userId v = Has (target c) →
  SSRCMap.calls (foldl (λ acc j, SSRCMap.onNew j v acc) s l) !! id
  = Some (SSRCMap.settle_call (Fulfilled v) c).
Proof.
  revert s. induction l as [|j l IH]; intros s Hnd Hin Hc Hp Hv.
  - by apply elem_of_nil in Hin.
  - apply NoDup_cons in Hnd as [Hj Hnd]. simpl.
    destruct (decide (j = id)) as [->|Hne].
    + rewrite foldl_onNew_calls_other by done.
      rewrite (onNew_match id v s c Hc Hv), settle_lookup, decide_True
        by done.
      assert (SSRCMap.calls
                (match maxTime c with
                 | Some _ => SSRCMap.clearTimeout id (SSRCMap.off id s)
                 | None => SSRCMap.off id s
                 end) = SSRCMap.calls s) as -> by (by destruct (maxTime c)).
      by rewrite Hc.
    + apply IH; [done| |by rewrite onNew_calls_ne|done|done].
      apply elem_of_cons in Hin as [?|?]; [congruence|done].
Qed.

Lemma settled_not_listening s id c :
  calls_ok s → SSRCMap.calls s !! id = Some c → promise c ≠ Pending →
  (id ∉ SSRCMap.listeners s) ∧ (id ∉ SSRCMap.timers s) ∧ settles c ≤ 1.
Proof.
  intros (_ & _ & Hcalls) Hc Hp. specialize (Hcalls id c Hc).
  unfold call_ok in Hcalls. destruct (promise c); [done|..];
    by destruct Hcalls as (? & ? & ? & _).
Qed.

Lemma pending_listening s id c :
  calls_ok s → SSRCMap.calls s !! id = Some c → promise c = Pending →
  id ∈ SSRCMap.listeners s
  ∧ (id ∈ SSRCMap.timers s ↔ is_Some (maxTime c))
  ∧ settles c = 0.
Proof.
  intros (_ & _ & Hcalls) Hc Hp. specialize (Hcalls id c Hc).
  unfold call_ok in Hcalls. by rewrite Hp in Hcalls.
Qed.

End calls_along_runs.

(** * The claims about [resolve] *)

(** C5. Fast path of [resolve]: when [get(target)] finds a binding at the
    moment of the call, the promise returned is already fulfilled with that
    binding, the listener array and the timers are what they were (no
    subscription is made, no timer armed), and nothing that happens later
    changes the promise. *)
Theorem resolve_fast_path (acts post : list Action) (tgt : string)
    (ms : option Z) (existing : VoiceUserData) :
  let s := run acts SSRCMap.init in
  let s' := (SSRCMap.resolve tgt ms s).1 in
  let id := (SSRCMap.resolve tgt ms s).2 in
  SSRCMap.get (TStr tgt) s = Some existing →
  SSRCMap.promise_of id s' = Some (Fulfilled existing)
  ∧ SSRCMap.listeners s' = SSRCMap.listeners s
  ∧ SSRCMap.timers s' = SSRCMap.timers s
  ∧ SSRCMap.map s' = SSRCMap.map s
  ∧ SSRCMap.emitted s' = SSRCMap.emitted s
  ∧ SSRCMap.promise_of id (run post s') = Some (Fulfilled existing).
Proof.
  intros s s' id Hget.
  pose proof (resolve_ok tgt ms s (calls_ok_run acts)) as Hok'.
  fold s' in Hok'. subst s' id.
  rewrite (resolve_found tgt ms s existing Hget) in *. cbn [fst snd] in *.
  assert (SSRCMap.calls
            (SSRCMap.with_calls
               (SSRCMap.calls s ++ [mkCall tgt ms (Fulfilled existing) 0]) s)
          !! length (SSRCMap.calls s)
          = Some (mkCall tgt ms (Fulfilled existing) 0)) as Hc
    by (by apply list_lookup_middle).
  split_and!; [|done..|].
  - unfold SSRCMap.promise_of. by rewrite Hc.
  - unfold SSRCMap.promise_of.
    by rewrite (run_settled post _ _ _ Hok' Hc).
Qed.

Lemma resolve_fast_path_witness :
  let d := mkVoiceUserData 7 Absent (Has "P") in
  let s := run [AUpdate d] SSRCMap.init in
  let s' := (SSRCMap.resolve "P" (Some 50%Z) s).1 in
  SSRCMap.get (TStr "P") s = Some d
  ∧ SSRCMap.promise_of 0 s' = Some (Fulfilled d)
  ∧ SSRCMap.listeners s' = []
  ∧ SSRCMap.timers s' = [].
Proof.
  intros d s s'.
  assert (SSRCMap.get (TStr "P") s = Some d) as Hget by reflexivity.
  destruct (resolve_fast_path [AUpdate d] [] "P" (Some 50%Z) d Hget)
    as (Hp & Hl & Ht & _).
  split_and!; [exact Hget | exact Hp | exact Hl | exact Ht].
Defined.

(** C4. Timeout and mutual exclusion of [resolve] with a deadline, called
    for a user id that [get] does not find.  The promise returned is
    pending, and its functions are called at most once whatever happens
    next.  As long as it is pending, the listener is registered and the
    timer armed, and then:
    (a) a creation notification for a binding whose [userId] is the target
        fulfils the promise with that binding, removes the listener and
        clears the timer, and from then on the promise stays fulfilled and
        its functions are not called again (no timeout error);
    (b) the timer running rejects the promise with the error made of the
        target and the deadline, removes the listener, and from then on the
        promise stays rejected and its functions are not called again. *)
Theorem resolve_timeout_exclusive (acts pre : list Action) (tgt : string)
    (ms : Z) :
  let s0 := run acts SSRCMap.init in
  let s1 := (SSRCMap.resolve tgt (Some ms) s0).1 in
  let id := (SSRCMap.resolve tgt (Some ms) s0).2 in
  let s2 := run pre s1 in
  SSRCMap.get (TStr tgt) s0 = None →
  SSRCMap.promise_of id s1 = Some Pending
  ∧ (∃ n, SSRCMap.settles_of id s2 = Some n ∧ n ≤ 1)
  ∧ (SSRCMap.promise_of id s2 = Some Pending →
     id ∈ SSRCMap.listeners s2 ∧ id ∈ SSRCMap.timers s2
     ∧ (∀ data post,
          SSRCMap.get (TNum (audioSSRC data)) s2 = None →
          userId data = Has tgt →
          let s3 := SSRCMap.update data s2 in
          SSRCMap.promise_of id s3 = Some (Fulfilled data)
          ∧ (id ∉ SSRCMap.listeners s3) ∧ (id ∉ SSRCMap.timers s3)
          ∧ SSRCMap.promise_of id (run post s3) = Some (Fulfilled data)
          ∧ SSRCMap.settles_of id (run post s3) = Some 1)
     ∧ (∀ post,
          let s3 := SSRCMap.fire id s2 in
          SSRCMap.promise_of id s3
          = Some (Rejected (DidNotFindSSRC tgt ms))
          ∧ (id ∉ SSRCMap.listeners s3) ∧ (id ∉ SSRCMap.timers s3)
          ∧ SSRCMap.promise_of id (run post s3)
            = Some (Rejected (DidNotFindSSRC tgt ms))
          ∧ SSRCMap.settles_of id (run post s3) = Some 1)).
Proof.
  intros s0 s1 id s2 Hget.
  pose proof (calls_ok_run acts) as Hok0. fold s0 in Hok0.
  pose proof (resolve_ok tgt (Some ms) s0 Hok0) as Hok1. fold s1 in Hok1.
  pose proof (calls_ok_run_from pre s1 Hok1) as Hok2. fold s2 in Hok2.
  destruct (resolve_not_found tgt (Some ms) s0 Hget) as (Hid & _ & _ & Hcs).
  fold s1 in Hcs. fold id in Hid.
  assert (SSRCMap.calls s1 !! id = Some (mkCall tgt (Some ms) Pending 0))
    as Hc1 by (rewrite Hcs, Hid; by apply list_lookup_middle).
  destruct (run_call pre s1 id _ Hc1) as (c2 & Hc2 & Htgt & Hms).
  fold s2 in Hc2. cbn in Htgt, Hms.
  unfold SSRCMap.promise_of, SSRCMap.settles_of.
  rewrite Hc1, Hc2. cbn [fmap option_fmap option_map promise].
  split_and!; [done| |].
  - exists (settles c2). split; [done|].
    destruct (decide (promise c2 = Pending)) as [Hp|Hp].
    + destruct (pending_listening s2 id c2 Hok2 Hc2 Hp) as (_ & _ & ->). lia.
    + by destruct (settled_not_listening s2 id c2 Hok2 Hc2 Hp) as (_ & _ & ?).
  - intros [= Hp].
    destruct (pending_listening s2 id c2 Hok2 Hc2 Hp) as (Hl & Ht & Hn).
    assert (id ∈ SSRCMap.timers s2) as Ht'
      by (apply Ht; rewrite Hms; by eexists).
    split_and!; [done|done| |].
    + intros data post Hnew Hu. set (s3 := SSRCMap.update data s2).
      pose proof (update_ok data s2 Hok2) as Hok3. fold s3 in Hok3.
      assert (SSRCMap.calls s3 !! id
              = Some (SSRCMap.settle_call (Fulfilled data) c2)) as Hc3.
      { subst s3. unfold SSRCMap.update. cbn [SSRCMap.get] in Hnew.
        rewrite Hnew. unfold SSRCMap.emit, SSRCMap.emit_new.
        cbn [SSRCMap.calls SSRCMap.with_emitted spread].
        apply foldl_onNew_fulfils;
          [by destruct Hok2 | done | exact Hc2 | done | by rewrite Htgt]. }
      assert (promise (SSRCMap.settle_call (Fulfilled data) c2)
              = Fulfilled data) as Hp3 by (cbn; by rewrite Hp).
      assert (promise (SSRCMap.settle_call (Fulfilled data) c2) ≠ Pending)
        as Hp3' by (by rewrite Hp3).
      destruct (settled_not_listening s3 id _ Hok3 Hc3 Hp3') as (? & ? & _).
      rewrite Hc3, (run_settled post s3 id _ Hok3 Hc3 Hp3').
      cbn [fmap option_fmap option_map]. rewrite Hp3. cbn [settles SSRCMap.settle_call].
      rewrite Hn. by split_and!.
    + intros post. set (s3 := SSRCMap.fire id s2).
      pose proof (fire_ok id s2 Hok2) as Hok3. fold s3 in Hok3.
      assert (SSRCMap.calls s3 !! id
              = Some (SSRCMap.settle_call
                        (Rejected (DidNotFindSSRC tgt ms)) c2)) as Hc3.
      { subst s3. rewrite (fire_armed id s2 c2 ms Ht' Hc2 Hms).
        rewrite settle_lookup, decide_True by done.
        change (SSRCMap.calls (SSRCMap.off id (SSRCMap.clearTimeout id s2)))
          with (SSRCMap.calls s2).
        by rewrite Hc2, Htgt. }
      assert (promise (SSRCMap.settle_call
                         (Rejected (DidNotFindSSRC tgt ms)) c2)
              = Rejected (DidNotFindSSRC tgt ms)) as Hp3
        by (cbn; by rewrite Hp).
      assert (promise (SSRCMap.settle_call
                         (Rejected (DidNotFindSSRC tgt ms)) c2) ≠ Pending)
        as Hp3' by (by rewrite Hp3).
      destruct (settled_not_listening s3 id _ Hok3 Hc3 Hp3') as (? & ? & _).
      rewrite Hc3, (run_settled post s3 id _ Hok3 Hc3 Hp3').
      cbn [fmap option_fmap option_map]. rewrite Hp3. cbn [settles SSRCMap.settle_call].
      rewrite Hn. by split_and!.
Qed.

Lemma resolve_timeout_exclusive_witness :
  let s1 := (SSRCMap.resolve "P" (Some 50%Z) SSRCMap.init).1 in
  let d := mkVoiceUserData 7 Absent (Has "P") in
  SSRCMap.get (TStr "P") SSRCMap.init = None
  ∧ SSRCMap.promise_of 0 s1 = Some Pending
  ∧ SSRCMap.promise_of 0 (run [ATimer 0] (SSRCMap.update d s1))
    = Some (Fulfilled d)
  ∧ SSRCMap.promise_of 0 (run [AUpdate d] (SSRCMap.fire 0 s1))
    = Some (Rejected (DidNotFindSSRC "P" 50)).
Proof.
  intros s1 d.
  assert (SSRCMap.get (TStr "P") SSRCMap.init = None) as Hget by reflexivity.
  destruct (resolve_timeout_exclusive [] [] "P" 50 Hget)
    as (Hpending & _ & Hrace).
  destruct (Hrace Hpending) as (_ & _ & Hcreated & Htimeout).
  split_and!; [exact Hget | exact Hpending | |].
  - by destruct (Hcreated d [ATimer 0] eq_refl eq_refl) as (_ & _ & _ & ? & _).
  - by destruct (Htimeout [AUpdate d]) as (_ & _ & _ & ? & _).
Defined.

(** C8. A pending call of [resolve] observes creation notifications only:
    an [update] for a key that has a binding emits an update notification
    and leaves every call, the listener array and the timers as they were,
    so the promise stays pending whatever the [userId] of the merged
    binding; and an action that takes the promise from pending to fulfilled
    is an [update] that creates a binding, with the promise fulfilled by
    that binding, whose [userId] is the target of the call. *)
Theorem resolve_observes_only_creation (s : SSRCMap.t) (id : nat) (c : Call) :
  SSRCMap.calls s !! id = Some c →
  promise c = Pending →
  (∀ data prev,
     SSRCMap.get (TNum (audioSSRC data)) s = Some prev →
     let s' := SSRCMap.update data s in
     SSRCMap.emitted s'
     = SSRCMap.emitted s ++ [EvUpdate (Some prev) (spread (Some prev) data)]
     ∧ SSRCMap.calls s' = SSRCMap.calls s
     ∧ SSRCMap.listeners s' = SSRCMap.listeners s
     ∧ SSRCMap.timers s' = SSRCMap.timers s
     ∧ SSRCMap.promise_of id s' = Some Pending)
  ∧ (∀ a v,
       SSRCMap.promise_of id (step s a) = Some (Fulfilled v) →
       ∃ data, a = AUpdate data
               ∧ SSRCMap.get (TNum (audioSSRC data)) s = None
               ∧ v = data
               ∧ userId v = Has (target c)).
Proof.
  intros Hc Hp. split.
  - intros data prev Hget s'. subst s'. rewrite update_emitted.
    cbn [SSRCMap.get] in Hget. unfold SSRCMap.promise_of, SSRCMap.update.
    rewrite Hget. cbn. rewrite Hc. cbn. by rewrite Hp.
  - intros a v Hv. unfold SSRCMap.promise_of in Hv.
    destruct (step_call s a id c Hc) as (c' & Hc' & _ & _ & Hcase).
    rewrite Hc' in Hv. cbn in Hv. injection Hv as Hv.
    destruct Hcase as [Hsame|(_ & [(data & -> & Hnew & Hful & Hu)
                                  |(ms & _ & _ & Hrej)])];
      [congruence| |congruence].
    exists data. rewrite Hv in Hful. injection Hful as ->. by split_and!.
Qed.

Lemma resolve_observes_only_creation_witness :
  let s := run [AUpdate (mkVoiceUserData 1 Absent (Has "Q"));
                AResolve "P" None] SSRCMap.init in
  let data := mkVoiceUserData 1 Absent (Has "P") in
  SSRCMap.calls s !! 0 = Some (mkCall "P" None Pending 0)
  ∧ SSRCMap.promise_of 0 (SSRCMap.update data s) = Some Pending
  ∧ SSRCMap.get (TStr "P") (SSRCMap.update data s) = Some data.
Proof.
  intros s data.
  assert (SSRCMap.calls s !! 0 = Some (mkCall "P" None Pending 0)) as Hc
    by reflexivity.
  destruct (resolve_observes_only_creation s 0 _ Hc eq_refl) as [Hupd _].
  split_and!; [exact Hc| |reflexivity].
  by destruct (Hupd data (mkVoiceUserData 1 Absent (Has "Q")) eq_refl)
    as (_ & _ & _ & _ & ?).
Defined.

(** * Further properties of the registry *)

(** ** More on the JavaScript map *)
Section jsmap_more.
Implicit Types (m : JSMap.t) (k : Z) (v : VoiceUserData).

Lemma jsmap_set_set m k v v' :
  JSMap.set k v (JSMap.set k v' m) = JSMap.set k v m.
Proof.
  induction m as [|[k0 v0] m IH]; simpl.
  - by rewrite decide_True.
  - destruct (decide (k = k0)) as [->|Hne]; simpl.
    + by rewrite decide_True.
    + rewrite decide_False by done. by rewrite IH.
Qed.

Lemma jsmap_delete_set_fresh m k v :
  JSMap.get k m = None → JSMap.delete k (JSMap.set k v m) = m.
Proof.
  induction m as [|[k0 v0] m IH]; simpl.
  - intros _. by rewrite decide_True.
  - destruct (decide (k = k0)) as [->|Hne]; [done|]. intros Hget. simpl.
    rewrite decide_False by done. by rewrite IH.
Qed.

Lemma filter_ne_id (l : list Z) k : k ∉ l → filter (λ x, x ≠ k) l = l.
Proof.
  induction l as [|x l IH]; [done|].
  rewrite not_elem_of_cons. intros [Hne Hnin].
  rewrite filter_cons, decide_True by done. by rewrite IH.
Qed.

(** [delete] takes one key out and leaves the others in their order. *)
Lemma jsmap_keys_delete m k :
  NoDup (JSMap.keys m) →
  JSMap.keys (JSMap.delete k m) = filter (λ x, x ≠ k) (JSMap.keys m).
Proof.
  unfold JSMap.keys. induction m as [|[k0 v0] m IH]; csimpl; [done|].
  intros [Hk0 Hnd]%NoDup_cons. rewrite filter_cons.
  destruct (decide (k = k0)) as [->|Hne]; csimpl.
  - rewrite decide_False by (by intros []). by rewrite filter_ne_id.
  - rewrite decide_True by done. by rewrite IH.
Qed.

Lemma jsmap_length_delete m k v :
  JSMap.get k m = Some v → S (length (JSMap.delete k m)) = length m.
Proof.
  induction m as [|[k0 v0] m IH]; simpl; [done|].
  destruct (decide (k = k0)) as [->|Hne]; simpl; [done|].
  intros Hget. by rewrite IH.
Qed.

Lemma jsmap_delete_middle (l1 l2 : JSMap.t) k v :
  k ∉ JSMap.keys l1 → JSMap.delete k (l1 ++ (k, v) :: l2) = l1 ++ l2.
Proof.
  unfold JSMap.keys. induction l1 as [|[k0 v0] l1 IH]; csimpl.
  - intros _. by rewrite decide_True.
  - rewrite not_elem_of_cons. intros [Hne Hnin].
    rewrite decide_False by done. by rewrite IH.
Qed.

End jsmap_more.

Lemma spread_idempotent existing data :
  spread (Some (spread existing data)) data = spread existing data.
Proof.
  destruct existing as [e|], data as [a vid uid]; simpl;
    by destruct vid, uid.
Qed.

Lemma get_loop_app_no_match u before after :
  Forall (λ d, userId d ≠ Has u) before →
  SSRCMap.get_loop u (before ++ after) = SSRCMap.get_loop u after.
Proof.
  induction before as [|x before IH]; simpl; [done|].
  intros [Hx Hbefore]%Forall_cons. rewrite decide_False by done.
  by apply IH.
Qed.

(** ** Lookup and the map *)

Lemma get_result_in_map (s : SSRCMap.t) (tgt : Target)
    (d : VoiceUserData) :
  map_ok (SSRCMap.map s) →
  SSRCMap.get tgt s = Some d →
  (audioSSRC d, d) ∈ SSRCMap.map s
  ∧ match tgt with
    | TNum n => audioSSRC d = n
    | TStr u => userId d = Has u
    end.
Proof.
  intros Hok Hget. destruct tgt as [n|u]; cbn [SSRCMap.get] in Hget.
  - pose proof (map_ok_get _ _ _ Hok Hget) as ->.
    split; [by apply jsmap_get_elem_of | done].
  - split; [|by eapply get_loop_userId].
    apply get_loop_Some in Hget as (before & after & Hvs & _ & _).
    assert (d ∈ JSMap.values (SSRCMap.map s)) as Hin
      by (rewrite Hvs, elem_of_app; right; apply list_elem_of_here).
    apply list_elem_of_fmap_1 in Hin as ([k d'] & -> & Hin). simpl.
    destruct Hok as [_ Hkey]. by rewrite (Hkey k d' Hin).
Qed.

(** X1. What [get] returns is a binding of the map that matches the
    target: looked up by number, its [audioSSRC] is that number; looked up
    by string, its [userId] is that string. *)
Theorem get_matches_target (acts : list Action) (tgt : Target)
    (d : VoiceUserData) :
  let s := run acts SSRCMap.init in
  SSRCMap.get tgt s = Some d →
  (audioSSRC d, d) ∈ SSRCMap.map s
  ∧ match tgt with
    | TNum n => audioSSRC d = n
    | TStr u => userId d = Has u
    end.
Proof.
  intros s Hget. apply get_result_in_map; [apply map_ok_run | done].
Qed.

Lemma get_matches_target_witness :
  let d1 := mkVoiceUserData 1 Absent (Has "u1") in
  let d2 := mkVoiceUserData 2 (Has 9%Z) (Has "u2") in
  let s := run [AUpdate d1; AUpdate d2] SSRCMap.init in
  SSRCMap.get (TStr "u2") s = Some d2
  ∧ (2%Z, d2) ∈ SSRCMap.map s
  ∧ userId d2 = Has "u2".
Proof.
  intros d1 d2 s.
  assert (SSRCMap.get (TStr "u2") s = Some d2) as Hget by reflexivity.
  destruct (get_matches_target [AUpdate d1; AUpdate d2] (TStr "u2") d2 Hget)
    as [Hin Hu].
  by split_and!.
Defined.

(** X2. [update] is idempotent on the map: a second call with the same
    record stores what the first stored, touches no call of [resolve], and
    emits one update notification whose previous and new bindings are
    equal. *)
Theorem update_twice (s : SSRCMap.t) (data : VoiceUserData) :
  let s1 := SSRCMap.update data s in
  let s2 := SSRCMap.update data s1 in
  let nv := spread (SSRCMap.get (TNum (audioSSRC data)) s) data in
  SSRCMap.map s2 = SSRCMap.map s1
  ∧ SSRCMap.emitted s2 = SSRCMap.emitted s1 ++ [EvUpdate (Some nv) nv]
  ∧ SSRCMap.calls s2 = SSRCMap.calls s1
  ∧ SSRCMap.listeners s2 = SSRCMap.listeners s1
  ∧ SSRCMap.timers s2 = SSRCMap.timers s1.
Proof.
  intros s1 s2 nv.
  assert (JSMap.get (audioSSRC data) (SSRCMap.map s1) = Some nv) as Hget.
  { subst s1. rewrite update_map. apply jsmap_get_set_eq. }
  split_and!.
  - subst s2. rewrite update_map, Hget. subst nv. rewrite spread_idempotent.
    subst s1. rewrite update_map. apply jsmap_set_set.
  - subst s2. rewrite update_emitted, Hget. subst nv.
    by rewrite spread_idempotent.
  - subst s2. unfold SSRCMap.update at 1. by rewrite Hget.
  - subst s2. unfold SSRCMap.update at 1. by rewrite Hget.
  - subst s2. unfold SSRCMap.update at 1. by rewrite Hget.
Qed.

(** ** [delete] and [update] together *)

(** X3. A binding that was deleted is created afresh by the next [update]
    of its key: the record is stored as it is, with nothing of the deleted
    binding merged in, a creation notification is emitted again, and the key
    moves to the end of the iteration order. *)
Theorem update_after_delete (acts : list Action) (tgt : Target)
    (b data : VoiceUserData) :
  let s := run acts SSRCMap.init in
  let s1 := (SSRCMap.delete tgt s).1 in
  let s2 := SSRCMap.update data s1 in
  SSRCMap.get tgt s = Some b →
  audioSSRC data = audioSSRC b →
  SSRCMap.get (TNum (audioSSRC data)) s2 = Some data
  ∧ SSRCMap.emitted s2
    = SSRCMap.emitted s ++ [EvDelete b; EvNew data; EvUpdate None data]
  ∧ JSMap.keys (SSRCMap.map s2)
    = filter (λ k, k ≠ audioSSRC b) (JSMap.keys (SSRCMap.map s))
      ++ [audioSSRC b].
Proof.
  intros s s1 s2 Hget HK.
  pose proof (map_ok_run acts) as Hok. fold s in Hok.
  assert (SSRCMap.map s1 = JSMap.delete (audioSSRC b) (SSRCMap.map s)
          ∧ SSRCMap.emitted s1 = SSRCMap.emitted s ++ [EvDelete b])
    as [Hm1 He1]
    by (subst s1; by rewrite (delete_found tgt s b Hok Hget)).
  destruct Hok as [Hnd Hkey].
  assert (JSMap.get (audioSSRC data) (SSRCMap.map s1) = None) as Hnone
    by (rewrite Hm1, HK; by apply jsmap_get_delete_eq).
  subst s2. split_and!.
  - cbn [SSRCMap.get]. rewrite update_map, jsmap_get_set_eq. by rewrite Hnone.
  - rewrite update_emitted, Hnone, He1. by rewrite <- app_assoc.
  - rewrite update_map, jsmap_keys_set, Hnone, Hm1, HK.
    by rewrite jsmap_keys_delete.
Qed.

Lemma update_after_delete_witness :
  let d1 := mkVoiceUserData 1 (Has 5%Z) (Has "u1") in
  let d2 := mkVoiceUserData 2 Absent (Has "u2") in
  let data := mkVoiceUserData 1 Absent (Has "u3") in
  let s := run [AUpdate d1; AUpdate d2] SSRCMap.init in
  let s2 := SSRCMap.update data (SSRCMap.delete (TStr "u1") s).1 in
  SSRCMap.get (TStr "u1") s = Some d1
  ∧ SSRCMap.get (TNum 1) s2 = Some data
  ∧ JSMap.keys (SSRCMap.map s2) = [2%Z; 1%Z].
Proof.
  intros d1 d2 data s s2.
  assert (SSRCMap.get (TStr "u1") s = Some d1) as Hget by reflexivity.
  destruct (update_after_delete [AUpdate d1; AUpdate d2] (TStr "u1") d1 data
              Hget eq_refl) as (Hstored & _ & Hkeys).
  split_and!; [exact Hget | exact Hstored | exact Hkeys].
Defined.

(** X4. Round trip of [update] and [delete] on a key that has no binding:
    [delete] returns the record [update] stored, the map is what it was
    before the two calls, and the three notifications are a creation, an
    update with no previous binding, and a deletion, all carrying the
    record. *)
Theorem update_delete_round_trip (s : SSRCMap.t) (data : VoiceUserData) :
  let K := audioSSRC data in
  let r := SSRCMap.delete (TNum K) (SSRCMap.update data s) in
  SSRCMap.get (TNum K) s = None →
  r.2 = Some data
  ∧ SSRCMap.map r.1 = SSRCMap.map s
  ∧ SSRCMap.emitted r.1
    = SSRCMap.emitted s ++ [EvNew data; EvUpdate None data; EvDelete data].
Proof.
  intros K r Hnone. cbn [SSRCMap.get] in Hnone.
  assert (JSMap.get K (SSRCMap.map (SSRCMap.update data s)) = Some data)
    as Hget.
  { rewrite update_map. fold K. rewrite Hnone. apply jsmap_get_set_eq. }
  subst r. unfold SSRCMap.delete. rewrite Hget. cbn [fst snd].
  split_and!; [done| |].
  - cbn. rewrite update_map. fold K. rewrite Hnone.
    by apply jsmap_delete_set_fresh.
  - cbn. rewrite update_emitted. fold K. rewrite Hnone.
    by rewrite <- app_assoc.
Qed.

Lemma update_delete_round_trip_witness :
  let d1 := mkVoiceUserData 1 Absent (Has "u1") in
  let data := mkVoiceUserData 2 (Has 3%Z) (Has "u2") in
  let s := run [AUpdate d1] SSRCMap.init in
  let r := SSRCMap.delete (TNum 2) (SSRCMap.update data s) in
  SSRCMap.get (TNum 2) s = None
  ∧ r.2 = Some data
  ∧ SSRCMap.map r.1 = SSRCMap.map s.
Proof.
  intros d1 data s r.
  assert (SSRCMap.get (TNum (audioSSRC data)) s = None) as Hnone
    by reflexivity.
  destruct (update_delete_round_trip s data Hnone) as (Hret & Hmap & _).
  split_and!; [exact Hnone | exact Hret | exact Hmap].
Defined.

(** X5. [delete] by user id takes out the first binding of that user and
    keeps the others in their order, so that [get] by the same user id then
    returns the next binding of that user, if there is one. *)
Theorem delete_by_user_next (acts : list Action) (u : string)
    (before after : list VoiceUserData) (d : VoiceUserData) :
  let s := run acts SSRCMap.init in
  let r := SSRCMap.delete (TStr u) s in
  JSMap.values (SSRCMap.map s) = before ++ d :: after →
  userId d = Has u →
  Forall (λ d', userId d' ≠ Has u) before →
  r.2 = Some d
  ∧ JSMap.values (SSRCMap.map r.1) = before ++ after
  ∧ SSRCMap.get (TStr u) r.1 = SSRCMap.get_loop u after.
Proof.
  intros s r Hvs Hu Hbefore.
  pose proof (map_ok_run acts) as Hok. fold s in Hok.
  assert (SSRCMap.get (TStr u) s = Some d) as Hget.
  { cbn [SSRCMap.get]. apply get_loop_Some. by exists before, after. }
  assert (JSMap.values (SSRCMap.map r.1) = before ++ after) as Hvs'.
  { subst r. rewrite (delete_found _ s d Hok Hget). cbn.
    unfold JSMap.values in Hvs.
    apply fmap_app_inv in Hvs as (l1 & l2' & -> & Hl2 & Hm).
    symmetry in Hl2.
    apply fmap_cons_inv in Hl2 as ([k d'] & l2 & Hd & -> & ->).
    simpl in Hd. subst d'. destruct Hok as [Hnd Hkey].
    assert (k = audioSSRC d) as ->.
    { symmetry. apply Hkey. rewrite Hm, elem_of_app. right.
      apply list_elem_of_here. }
    rewrite Hm in *. rewrite jsmap_delete_middle.
    - unfold JSMap.values. by rewrite fmap_app.
    - unfold JSMap.keys in *. rewrite fmap_app in Hnd.
      apply NoDup_app in Hnd as (_ & Hdisj & _).
      intros Hin. apply (Hdisj _ Hin). csimpl. apply list_elem_of_here. }
  split_and!; [|done|].
  - subst r. by rewrite (delete_found _ s d Hok Hget).
  - cbn [SSRCMap.get]. rewrite Hvs'. by apply get_loop_app_no_match.
Qed.

Lemma delete_by_user_next_witness :
  let d1 := mkVoiceUserData 1 Absent (Has "v") in
  let d2 := mkVoiceUserData 2 Absent (Has "u") in
  let d3 := mkVoiceUserData 3 Absent (Has "u") in
  let s := run [AUpdate d1; AUpdate d2; AUpdate d3] SSRCMap.init in
  let r := SSRCMap.delete (TStr "u") s in
  JSMap.values (SSRCMap.map s) = [d1] ++ d2 :: [d3]
  ∧ r.2 = Some d2
  ∧ SSRCMap.get (TStr "u") r.1 = Some d3.
Proof.
  intros d1 d2 d3 s r.
  assert (JSMap.values (SSRCMap.map s) = [d1] ++ d2 :: [d3]) as Hvs
    by reflexivity.
  assert (Forall (λ d', userId d' ≠ Has "u") [d1]) as Hbefore
    by (repeat constructor; simpl; congruence).
  destruct (delete_by_user_next [AUpdate d1; AUpdate d2; AUpdate d3] "u"
              [d1] [d3] d2 Hvs eq_refl Hbefore) as (Hret & _ & Hnext).
  split_and!; [exact Hvs | exact Hret | exact Hnext].
Defined.

(** X6. A [delete] that finds a binding takes exactly one entry out of the
    map: the keys left are the keys before without the key of the binding
    returned, in the same order, and the map is one entry shorter. *)
Theorem delete_keys (acts : list Action) (tgt : Target) (b : VoiceUserData) :
  let s := run acts SSRCMap.init in
  let r := SSRCMap.delete tgt s in
  r.2 = Some b →
  JSMap.keys (SSRCMap.map r.1)
  = filter (λ k, k ≠ audioSSRC b) (JSMap.keys (SSRCMap.map s))
  ∧ S (length (SSRCMap.map r.1)) = length (SSRCMap.map s).
Proof.
  intros s r Hret.
  pose proof (map_ok_run acts) as Hok. fold s in Hok.
  destruct (SSRCMap.get tgt s) as [b'|] eqn:Hget.
  - subst r. rewrite (delete_found tgt s b' Hok Hget) in *.
    cbn [fst snd] in *. injection Hret as ->. cbn.
    destruct (get_result_in_map s tgt b Hok Hget) as [Hin _].
    destruct Hok as [Hnd _]. split.
    + by apply jsmap_keys_delete.
    + eapply jsmap_length_delete. by apply jsmap_elem_of_get.
  - subst r. by rewrite (delete_not_found tgt s Hget) in Hret.
Qed.

Lemma delete_keys_witness :
  let d1 := mkVoiceUserData 1 Absent (Has "u1") in
  let d2 := mkVoiceUserData 2 Absent (Has "u2") in
  let d3 := mkVoiceUserData 3 Absent (Has "u3") in
  let s := run [AUpdate d1; AUpdate d2; AUpdate d3] SSRCMap.init in
  let r := SSRCMap.delete (TNum 2) s in
  r.2 = Some d2
  ∧ JSMap.keys (SSRCMap.map r.1) = [1%Z; 3%Z]
  ∧ S (length (SSRCMap.map r.1)) = 3.
Proof.
  intros d1 d2 d3 s r.
  assert (r.2 = Some d2) as Hret by reflexivity.
  destruct (delete_keys [AUpdate d1; AUpdate d2; AUpdate d3] (TNum 2) d2
              Hret) as [Hkeys Hlen].
  split_and!; [exact Hret | exact Hkeys | exact Hlen].
Defined.

(** ** The log and the map *)

Lemma deletions_app K l1 l2 :
  deletions K (l1 ++ l2) = deletions K l1 + deletions K l2.
Proof. unfold deletions. by rewrite filter_app, length_app. Qed.

Lemma update_deletions data s K :
  deletions K (SSRCMap.emitted (SSRCMap.update data s))
  = deletions K (SSRCMap.emitted s).
Proof.
  rewrite update_emitted, deletions_app.
  destruct (JSMap.get _ _); unfold deletions at 2;
    rewrite !filter_cons, !filter_nil; simpl; lia.
Qed.

Lemma creations_delete_event K b : creations K [EvDelete b] = 0.
Proof. unfold creations. by rewrite filter_cons, filter_nil. Qed.

Lemma deletions_delete_event K b :
  deletions K [EvDelete b] = if decide (audioSSRC b = K) then 1 else 0.
Proof.
  unfold deletions. rewrite filter_cons, filter_nil. simpl.
  destruct (decide (audioSSRC b = K)) as [HK|HK].
  - by rewrite bool_decide_eq_true_2.
  - by rewrite bool_decide_eq_false_2.
Qed.

(** X7. The log mirrors the key set: in every state of a registry and for
    every key, the creation notifications about the key are as many as the
    deletion notifications about it, plus one when the key has a binding.
    A subscriber that adds a key on each creation and drops it on each
    deletion therefore holds exactly the keys of the map. *)
Theorem creations_balance_deletions (acts : list Action) (K : Z) :
  let s := run acts SSRCMap.init in
  creations K (SSRCMap.emitted s)
  = deletions K (SSRCMap.emitted s)
    + (if SSRCMap.get (TNum K) s is Some _ then 1 else 0).
Proof.
  induction acts as [|a acts IH] using rev_ind; [done|].
  intros s. subst s. rewrite run_snoc.
  set (s := run acts SSRCMap.init) in *. cbv zeta in IH.
  pose proof (map_ok_run acts) as Hok. fold s in Hok.
  cbn [SSRCMap.get] in *.
  destruct a as [data|tgt|tgt ms|id]; unfold step.
  - destruct (update_counts data s K) as [-> _].
    rewrite update_deletions, update_map, IH. cbn [SSRCMap.get].
    destruct (decide (audioSSRC data = K)) as [<-|Hne].
    + rewrite jsmap_get_set_eq.
      destruct (JSMap.get (audioSSRC data) (SSRCMap.map s)); lia.
    + rewrite jsmap_get_set_ne by done. lia.
  - destruct (SSRCMap.get tgt s) as [b|] eqn:Hget.
    + rewrite (delete_found tgt s b Hok Hget).
      cbn [fst SSRCMap.emitted SSRCMap.map SSRCMap.emit
           SSRCMap.with_emitted SSRCMap.with_map].
      rewrite creations_app, deletions_app, creations_delete_event,
        deletions_delete_event, IH.
      destruct (get_result_in_map s tgt b Hok Hget) as [Hin _].
      destruct Hok as [Hnd Hkey].
      destruct (decide (audioSSRC b = K)) as [<-|Hne].
      * rewrite jsmap_get_delete_eq by done.
        rewrite (jsmap_elem_of_get _ _ _ Hnd Hin). lia.
      * rewrite jsmap_get_delete_ne by done. lia.
    + by rewrite (delete_not_found tgt s Hget).
  - by rewrite resolve_emitted, resolve_map.
  - by rewrite fire_emitted, fire_map.
Qed.

(** ** The calls of [resolve], their listeners and their timers *)

(** X8. No listener and no timer is left behind: in every state of a
    registry the listeners registered for creation notifications are, each
    once, those of the calls of [resolve] whose promise is pending, and the
    timers armed are those of the pending calls that were given a
    deadline. *)
Theorem listeners_are_pending (acts : list Action) (id : nat) :
  let s := run acts SSRCMap.init in
  (id ∈ SSRCMap.listeners s ↔ SSRCMap.promise_of id s = Some Pending)
  ∧ (id ∈ SSRCMap.timers s ↔
     ∃ c, SSRCMap.calls s !! id = Some c ∧ promise c = Pending
          ∧ is_Some (maxTime c))
  ∧ NoDup (SSRCMap.listeners s).
Proof.
  intros s. pose proof (calls_ok_run acts) as Hok. fold s in Hok.
  unfold SSRCMap.promise_of. split_and!.
  - split.
    + intros Hin. destruct (listener_pending s id Hok Hin) as (c & -> & Hp).
      cbn. by rewrite Hp.
    + destruct (SSRCMap.calls s !! id) as [c|] eqn:Hc; [|done].
      cbn. intros [= Hp]. by destruct (pending_listening s id c Hok Hc Hp).
  - split.
    + intros Hin.
      destruct (timer_pending s id Hok Hin) as (c & ms & Hc & Hp & Hms).
      exists c. split_and!; [done..|]. rewrite Hms. by eexists.
    + intros (c & Hc & Hp & Hms).
      destruct (pending_listening s id c Hok Hc Hp) as (_ & Hiff & _).
      by apply Hiff.
  - by destruct Hok.
Qed.

(** X9. What a promise returned by [resolve] can hold: in every state of a
    registry, a fulfilled promise holds a binding whose [userId] is the
    target of its call, a rejected promise holds the error made of the
    target and the deadline of its call, and the functions of a promise
    have been called at most once, and not at all while it is pending. *)
Theorem promise_values (acts : list Action) (id : nat) (c : Call) :
  let s := run acts SSRCMap.init in
  SSRCMap.calls s !! id = Some c →
  settles c ≤ 1
  ∧ match promise c with
    | Pending => settles c = 0
    | Fulfilled v => userId v = Has (target c)
    | Rejected e =>
        ∃ ms, maxTime c = Some ms ∧ e = DidNotFindSSRC (target c) ms
    end.
Proof.
  intros s Hc. pose proof (calls_ok_run acts) as (_ & _ & Hcalls).
  fold s in Hcalls. specialize (Hcalls id c Hc). unfold call_ok in Hcalls.
  destruct (promise c).
  - destruct Hcalls as (_ & _ & ->). split; [lia|done].
  - by destruct Hcalls as (_ & _ & ? & ?).
  - by destruct Hcalls as (_ & _ & ? & ?).
Qed.

Lemma promise_values_witness :
  let d := mkVoiceUserData 7 Absent (Has "P") in
  let acts := [AResolve "P" (Some 50%Z); AUpdate d; ATimer 0] in
  SSRCMap.calls (run acts SSRCMap.init) !! 0
  = Some (mkCall "P" (Some 50%Z) (Fulfilled d) 1)
  ∧ userId d = Has "P".
Proof.
  intros d acts.
  assert (SSRCMap.calls (run acts SSRCMap.init) !! 0
          = Some (mkCall "P" (Some 50%Z) (Fulfilled d) 1)) as Hc
    by reflexivity.
  destruct (promise_values acts 0 _ Hc) as [_ Hv].
  split; [exact Hc | exact Hv].
Defined.

(** X10. [resolve] without a deadline arms no timer and its promise is
    never rejected, whatever happens afterwards. *)
Theorem resolve_without_deadline (acts post : list Action) (tgt : string) :
  let s0 := run acts SSRCMap.init in
  let s1 := (SSRCMap.resolve tgt None s0).1 in
  let id := (SSRCMap.resolve tgt None s0).2 in
  let s2 := run post s1 in
  SSRCMap.timers s1 = SSRCMap.timers s0
  ∧ (id ∉ SSRCMap.timers s2)
  ∧ ∀ e, SSRCMap.promise_of id s2 ≠ Some (Rejected e).
Proof.
  intros s0 s1 id s2.
  pose proof (calls_ok_run acts) as Hok0. fold s0 in Hok0.
  pose proof (resolve_ok tgt None s0 Hok0) as Hok1. fold s1 in Hok1.
  pose proof (calls_ok_run_from post s1 Hok1) as Hok2. fold s2 in Hok2.
  assert (SSRCMap.timers s1 = SSRCMap.timers s0
          ∧ ∃ p, SSRCMap.calls s1 !! id = Some (mkCall tgt None p 0))
    as [Ht (p & Hc1)].
  { subst s1 id. destruct (SSRCMap.get (TStr tgt) s0) as [b|] eqn:Hget.
    - rewrite (resolve_found tgt None s0 b Hget). cbn [fst snd].
      split; [done|]. eexists. by apply list_lookup_middle.
    - destruct (resolve_not_found tgt None s0 Hget)
        as (Hid & _ & Ht & Hcs).
      rewrite Ht, Hcs, Hid, app_nil_r. split; [done|].
      eexists. by apply list_lookup_middle. }
  destruct (run_call post s1 id _ Hc1) as (c2 & Hc2 & _ & Hms).
  fold s2 in Hc2. cbn in Hms.
  destruct Hok2 as (_ & _ & Hcalls). specialize (Hcalls id c2 Hc2).
  unfold call_ok in Hcalls. unfold SSRCMap.promise_of. rewrite Hc2. cbn.
  split_and!; [done| |].
  - destruct (promise c2).
    + destruct Hcalls as (_ & Hiff & _). rewrite Hiff, Hms.
      by intros []%is_Some_None.
    + by destruct Hcalls as (_ & ? & _).
    + by destruct Hcalls as (_ & ? & _).
  - intros e [= Hp]. rewrite Hp in Hcalls.
    destruct Hcalls as (_ & _ & _ & ms & Hsome & _). congruence.
Qed.

(** X11. One creation notification serves every call of [resolve] that
    waits: when [update] creates a binding, each pending call whose target
    is the [userId] of the binding is fulfilled with it, and each pending
    call with another target stays pending with its listener registered. *)
Theorem creation_fulfils_waiters (acts : list Action) (data : VoiceUserData)
    (id : nat) (c : Call) :
  let s := run acts SSRCMap.init in
  let s' := SSRCMap.update data s in
  SSRCMap.get (TNum (audioSSRC data)) s = None →
  SSRCMap.calls s !! id = Some c →
  promise c = Pending →
  if decide (userId data = Has (target c)) then
    SSRCMap.promise_of id s' = Some (Fulfilled data)
    ∧ (id ∉ SSRCMap.listeners s') ∧ (id ∉ SSRCMap.timers s')
  else
    SSRCMap.promise_of id s' = Some Pending ∧ id ∈ SSRCMap.listeners s'.
Proof.
  intros s s' Hnew Hc Hp.
  pose proof (calls_ok_run acts) as Hok. fold s in Hok.
  pose proof (update_ok data s Hok) as Hok'. fold s' in Hok'.
  destruct (pending_listening s id c Hok Hc Hp) as (Hl & _ & _).
  cbn [SSRCMap.get] in Hnew. unfold SSRCMap.promise_of.
  destruct (decide (userId data = Has (target c))) as [Hu|Hu].
  - assert (SSRCMap.calls s' !! id
            = Some (SSRCMap.settle_call (Fulfilled data) c)) as Hc'.
    { subst s'. unfold SSRCMap.update. rewrite Hnew.
      unfold SSRCMap.emit, SSRCMap.emit_new.
      cbn [SSRCMap.calls SSRCMap.with_emitted spread].
      apply foldl_onNew_fulfils; [by destruct Hok | done | exact Hc | done..]. }
    assert (promise (SSRCMap.settle_call (Fulfilled data) c)
            = Fulfilled data) as Hp' by (cbn; by rewrite Hp).
    assert (promise (SSRCMap.settle_call (Fulfilled data) c) ≠ Pending)
      as Hp'' by (by rewrite Hp').
    destruct (settled_not_listening s' id _ Hok' Hc' Hp'') as (? & ? & _).
    rewrite Hc'. cbn [fmap option_fmap option_map]. by rewrite Hp'.
  - destruct (step_call s (AUpdate data) id c Hc)
      as (c' & Hc' & _ & _ & Hcase).
    cbn [step] in Hc'. fold s' in Hc'.
    assert (promise c' = Pending) as Hp'.
    { destruct Hcase as [->|(_ & [(d & [= <-] & _ & _ & Hd)
                                 |(ms & [=] & _)])]; done. }
    rewrite Hc'. cbn. rewrite Hp'. split; [done|].
    by destruct (pending_listening s' id c' Hok' Hc' Hp').
Qed.

Lemma creation_fulfils_waiters_witness :
  let d := mkVoiceUserData 7 Absent (Has "P") in
  let acts := [AResolve "P" None; AResolve "Q" (Some 50%Z);
               AResolve "P" (Some 10%Z)] in
  let s' := SSRCMap.update d (run acts SSRCMap.init) in
  SSRCMap.promise_of 0 s' = Some (Fulfilled d)
  ∧ SSRCMap.promise_of 1 s' = Some Pending
  ∧ SSRCMap.promise_of 2 s' = Some (Fulfilled d).
Proof.
  intros d acts s'.
  pose proof (creation_fulfils_waiters acts d 0 (mkCall "P" None Pending 0)
                eq_refl eq_refl eq_refl) as H0.
  pose proof (creation_fulfils_waiters acts d 1
                (mkCall "Q" (Some 50%Z) Pending 0)
                eq_refl eq_refl eq_refl) as H1.
  pose proof (creation_fulfils_waiters acts d 2
                (mkCall "P" (Some 10%Z) Pending 0)
                eq_refl eq_refl eq_refl) as H2.
  cbv zeta in H0, H1, H2. fold acts s' in H0, H1, H2.
  rewrite decide_True in H0 by reflexivity.
  rewrite decide_False in H1 by (simpl; congruence).
  rewrite decide_True in H2 by reflexivity.
  split_and!; [by destruct H0 | by destruct H1 | by destruct H2].
Defined.

(** X12. What the operations leave alone: [resolve] and a timer running
    change no binding and emit no notification, and [delete] touches no
    call of [resolve], no listener and no timer. *)
Theorem operations_frame (s : SSRCMap.t) (tgt : string) (ms : option Z)
    (id : nat) (key : Target) :
  (SSRCMap.map (SSRCMap.resolve tgt ms s).1 = SSRCMap.map s
   ∧ SSRCMap.emitted (SSRCMap.resolve tgt ms s).1 = SSRCMap.emitted s)
  ∧ (SSRCMap.map (SSRCMap.fire id s) = SSRCMap.map s
     ∧ SSRCMap.emitted (SSRCMap.fire id s) = SSRCMap.emitted s)
  ∧ (SSRCMap.calls (SSRCMap.delete key s).1 = SSRCMap.calls s
     ∧ SSRCMap.listeners (SSRCMap.delete key s).1 = SSRCMap.listeners s
     ∧ SSRCMap.timers (SSRCMap.delete key s).1 = SSRCMap.timers s).
Proof.
  destruct (delete_calls key s) as (Hl & Ht & Hc).
  split_and!;
    [apply resolve_map | apply resolve_emitted | apply fire_map
    | apply fire_emitted | exact Hc | exact Hl | exact Ht].
Qed.

(** X13. A promise settles once: in every state of a registry, the call of
    a promise that is fulfilled or rejected is the same after any further
    actions, with the same value or error and the same number of calls of
    its functions. *)
Theorem settled_promise_stable (acts post : list Action) (id : nat)
    (c : Call) :
  let s := run acts SSRCMap.init in
  SSRCMap.calls s !! id = Some c →
  promise c ≠ Pending →
  SSRCMap.calls (run post s) !! id = Some c.
Proof.
  intros s Hc Hp. apply run_settled; [apply calls_ok_run | done..].
Qed.

Lemma settled_promise_stable_witness :
  let d := mkVoiceUserData 7 Absent (Has "P") in
  let acts := [AResolve "P" (Some 50%Z); ATimer 0] in
  let c := mkCall "P" (Some 50%Z) (Rejected (DidNotFindSSRC "P" 50)) 1 in
  SSRCMap.calls (run acts SSRCMap.init) !! 0 = Some c
  ∧ SSRCMap.calls
      (run [AUpdate d; ATimer 0; ADelete (TNum 7)] (run acts SSRCMap.init))
    !! 0 = Some c.
Proof.
  intros d acts c.
  assert (SSRCMap.calls (run acts SSRCMap.init) !! 0 = Some c) as Hc
    by reflexivity.
  split; [exact Hc|].
  apply (settled_promise_stable acts
           [AUpdate d; ATimer 0; ADelete (TNum 7)] 0 c Hc).
  simpl. congruence.
Defined.
